(** * superfile prompt: shell substitution and tokenization

    A shallow embedding of [src/internal/ui/prompt/tokenize.go]
    ([findEndingParenthesis], [resolveShellSubstitution],
    [tokenizePromptCommand]) together with the properties the
    specification states about them, and of the cell size detection of
    [src/pkg/file_preview/utils.go] ([parseCSI16tResponse],
    [DetectTerminalCellSize], [GetTerminalCellSize]).

    Conventions of the embedding.
    - A Go [rune] is an integer code point, here a [Z].  A Go [string] is
      represented by its sequence of code points ([gostring]); the
      conversions [[]rune(s)] and [string(rs)] are the identity on this
      representation (they are on well-formed UTF-8 text).
    - A Go [int] is a [Z].  Every integer computed below is an index
      between [-1] and [len(r) + 1] or a bracket depth between [0] and
      [len(r)], so the 64-bit wrap-around never happens.
    - Indexing and slicing outside the bounds panic in Go; the embedding
      returns [Panic] there.  A loop runs on fuel and returns [OutOfFuel]
      when the fuel is spent before the loop condition fails.
    - The process environment and the shell are collaborators: they are
      parameters of the development, and the state of the outside world is
      threaded through the calls. *)

From Stdlib Require Import ZArith List Bool Lia String Ascii.
Import ListNotations.
Open Scope Z_scope.

#[local] Set Warnings "-notation-for-abbreviation".

(** ** Outcomes of a computation *)

Inductive outcome (A : Type) : Type :=
| Val (a : A)
| Panic
| OutOfFuel.

Arguments Val {A} a.
Arguments Panic {A}.
Arguments OutOfFuel {A}.

Definition bind {A B : Type} (m : outcome A) (f : A -> outcome B) : outcome B :=
  match m with
  | Val a => f a
  | Panic => Panic
  | OutOfFuel => OutOfFuel
  end.

Notation "x <- m ;; k" := (bind m (fun x => k))
  (at level 61, m at next level, right associativity).

(** Go's short-circuit [a && b] and [a || b] when [b] may panic. *)
Definition andM (a : bool) (b : outcome bool) : outcome bool :=
  if a then b else Val false.

Definition orM (a : bool) (b : outcome bool) : outcome bool :=
  if a then Val true else b.

(** ** Control flow *)

(** What one turn of a loop body asks for: another turn from a new state,
    or leaving the enclosing function with a value. *)
Inductive ctl (S R : Type) : Type :=
| Continue (s : S)
| Return (v : R).

Arguments Continue {S R} s.
Arguments Return {S R} v.

(** [for cond { body }] whose body never returns. *)
Fixpoint while {S : Type} (fuel : nat) (cond : S -> bool)
         (body : S -> outcome S) (s : S) : outcome S :=
  if cond s then
    match fuel with
    | O => OutOfFuel
    | Datatypes.S k => s' <- body s ;; while k cond body s'
    end
  else Val s.

(** [for cond { body }] whose body may [return]; [Continue s] in the result
    is the state in which the condition failed. *)
Fixpoint loop {S R : Type} (fuel : nat) (cond : S -> bool)
         (body : S -> outcome (ctl S R)) (s : S) : outcome (ctl S R) :=
  if cond s then
    match fuel with
    | O => OutOfFuel
    | Datatypes.S k =>
        c <- body s ;;
        match c with
        | Continue s' => loop k cond body s'
        | Return v => Val (Return v)
        end
    end
  else Val (Continue s).

(** ** Runes, strings, slices *)

Definition rune : Type := Z.
Definition gostring : Type := list rune.

Definition len {A : Type} (r : list A) : Z := Z.of_nat (List.length r).

(** [r[i]] *)
Definition rune_at (r : list rune) (i : Z) : outcome rune :=
  if (0 <=? i) && (i <? len r) then
    match nth_error r (Z.to_nat i) with
    | Some x => Val x
    | None => Panic
    end
  else Panic.

(** [r[lo:hi]].  Go checks [hi] against the capacity; the embedding checks
    it against the length, so it panics at least as often as the code. *)
Definition slice (r : list rune) (lo hi : Z) : outcome (list rune) :=
  if (0 <=? lo) && (lo <=? hi) && (hi <=? len r) then
    Val (firstn (Z.to_nat (hi - lo)) (skipn (Z.to_nat lo) r))
  else Panic.

(** Rune literals of the source. *)
Definition r_dollar : rune := 36.   (* '$' *)
Definition r_lparen : rune := 40.   (* '(' *)
Definition r_rparen : rune := 41.   (* ')' *)
Definition r_lbrace : rune := 123.  (* '{' *)
Definition r_rbrace : rune := 125.  (* '}' *)

(** An ASCII literal as a Go string, for the examples. *)
Fixpoint str (s : string) : gostring :=
  match s with
  | EmptyString => []
  | String a s' => Z.of_nat (nat_of_ascii a) :: str s'
  end.

(** ** findEndingParenthesis (tokenize.go, lines 95-113) *)

Section FindEnding.

Variable r : list rune.
Variables open close : rune.

(** [i < len(r) && openCount != 0] *)
Definition fep_cond (s : Z * Z) : bool :=
  let '(i, openCount) := s in
  (i <? len r) && negb (openCount =? 0).

(** The body of the [for], lines 103-110. *)
Definition fep_body (s : Z * Z) : outcome (Z * Z) :=
  let '(i, openCount) := s in
  x <- rune_at r i ;;
  let openCount :=
    if x =? open then openCount + 1
    else if x =? close then openCount - 1
    else openCount in
  let i := if negb (openCount =? 0) then i + 1 else i in
  Val (i, openCount).

Definition findEndingParenthesis (openIdx : Z) : outcome Z :=
  bad <- orM (openIdx <? 0)
           (orM (openIdx >=? len r)
              (x <- rune_at r openIdx ;; Val (negb (x =? open)))) ;;
  if bad then Val (-1)
  else
    s <- while (List.length r) fep_cond fep_body (openIdx + 1, 1) ;;
    Val (fst s).

End FindEnding.

(** ** Errors *)

(** The [error] the shell collaborator hands back.  [DeadlineExceeded] is
    Go's [context.DeadlineExceeded], which the timeout test matches with
    [errors.Is]; every other cause is kept as its message. *)
Inductive exec_error : Type :=
| DeadlineExceeded
| ExecFailure (msg : gostring).

(** The errors [resolveShellSubstitution] builds, one constructor per
    [return "", ...] of the source. *)
Inductive error : Type :=
| unexpectedTokenizationError           (* fmt.Errorf("unexpected error in tokenization") *)
| curlyBracketParMatchError             (* line 38 *)
| bracketParMatchError                  (* line 61 *)
| envVarNotFoundError (varName : gostring)  (* line 45 *)
| couldNotExecuteError (subCmd : gostring) (cause : option exec_error).
                                        (* line 68, [%w] wraps [cause] *)

(** [errors.Is(err, context.DeadlineExceeded)]: only the [%w] of line 68
    wraps another error. *)
Definition wrapsDeadlineExceeded (e : error) : bool :=
  match e with
  | couldNotExecuteError _ (Some DeadlineExceeded) => true
  | _ => false
  end.

(** The error kinds of the specification, read off the place of the source
    that raises each. *)
Definition isShellLaunchError (e : error) : bool :=
  match e with
  | couldNotExecuteError _ _ => true
  | _ => false
  end.

(** ** resolveShellSubstitution (tokenize.go, lines 23-93) *)

Section Resolver.

(** The state of the world outside the process, the environment read by
    [os.LookupEnv] and the shell behind [utils.ExecuteCommandInShell],
    which returns [(retCode, output, err)]. *)
Context {World : Type}.
Variable LookupEnv : World -> gostring -> option gostring.
Variable ExecuteCommandInShell :
  World -> Z -> gostring -> gostring ->
  World * (Z * gostring * option exec_error).

(** [cmdRunes] is [[]rune(command)]. *)
Variable subCmdTimeout : Z.
Variable cmdRunes : list rune.
Variable cwdLocation : gostring.

(** The variables of the loop: [i], [resCommand], and the world. *)
Record rss_state : Type := mk_rss {
  rss_i : Z;
  rss_res : gostring;
  rss_world : World
}.

(** What the function returns: the world it leaves and Go's
    [(string, error)]. *)
Definition rss_result : Type := (World * (gostring * option error))%type.

Definition rss_cond (s : rss_state) : bool := rss_i s <? len cmdRunes.

(** Lines 82-83 and 86-87. *)
Definition rss_copy (s : rss_state) : outcome (ctl rss_state rss_result) :=
  x <- rune_at cmdRunes (rss_i s) ;;
  Val (Continue (mk_rss (rss_i s + 1) (rss_res s ++ [x]) (rss_world s))).

(** Lines 31-51. *)
Definition rss_curly (s : rss_state) : outcome (ctl rss_state rss_result) :=
  let i := rss_i s in
  let w := rss_world s in
  end_ <- findEndingParenthesis cmdRunes r_lbrace r_rbrace (i + 1) ;;
  if end_ =? -1 then Val (Return (w, ([], Some unexpectedTokenizationError)))
  else if end_ =? len cmdRunes then
    Val (Return (w, ([], Some curlyBracketParMatchError)))
  else
    envVarName <- slice cmdRunes (i + 2) end_ ;;
    match LookupEnv w envVarName with
    | None => Val (Return (w, ([], Some (envVarNotFoundError envVarName))))
    | Some value =>
        Val (Continue (mk_rss (end_ + 1) (rss_res s ++ value) w))
    end.

(** Lines 53-80.  The [slog.Debug] of a nonzero exit code changes
    nothing the function returns. *)
Definition rss_round (s : rss_state) : outcome (ctl rss_state rss_result) :=
  let i := rss_i s in
  let w := rss_world s in
  end_ <- findEndingParenthesis cmdRunes r_lparen r_rparen (i + 1) ;;
  if end_ =? -1 then Val (Return (w, ([], Some unexpectedTokenizationError)))
  else if end_ =? len cmdRunes then
    Val (Return (w, ([], Some bracketParMatchError)))
  else
    subCmd <- slice cmdRunes (i + 2) end_ ;;
    let '(w', (retCode, output, err)) :=
      ExecuteCommandInShell w subCmdTimeout cwdLocation subCmd in
    if retCode =? -1 then
      Val (Return (w', ([], Some (couldNotExecuteError subCmd err))))
    else
      Val (Continue (mk_rss (end_ + 1) (rss_res s ++ output) w')).

(** The body of the [for], lines 29-88. *)
Definition rss_body (s : rss_state) : outcome (ctl rss_state rss_result) :=
  let i := rss_i s in
  dollar <- andM (i + 1 <? len cmdRunes)
              (x <- rune_at cmdRunes i ;; Val (x =? r_dollar)) ;;
  if dollar then
    n <- rune_at cmdRunes (i + 1) ;;
    if n =? r_lbrace then rss_curly s
    else
      n <- rune_at cmdRunes (i + 1) ;;
      if n =? r_lparen then rss_round s
      else rss_copy s
  else rss_copy s.

Definition rss_run (fuel : nat) (s : rss_state) : outcome rss_result :=
  c <- loop fuel rss_cond rss_body s ;;
  match c with
  | Continue s' => Val (rss_world s', (rss_res s', None))
  | Return v => Val v
  end.

Definition resolveShellSubstitution (w : World) : outcome rss_result :=
  rss_run (List.length cmdRunes) (mk_rss 0 [] w).

(** The loop, started in [s], comes to the top of the [for] in [s']. *)
Inductive rss_reaches (s : rss_state) : rss_state -> Prop :=
| rss_reaches_here : rss_reaches s s
| rss_reaches_turn (s1 s2 : rss_state) :
    rss_reaches s s1 ->
    rss_cond s1 = true ->
    rss_body s1 = Val (Continue s2) ->
    rss_reaches s s2.

(** A call in world [w] comes to the top of the [for] in [s]. *)
Definition rss_visits (w : World) (s : rss_state) : Prop :=
  rss_reaches (mk_rss 0 [] w) s.

End Resolver.

(** What the function returns when it fails: the empty string and an
    error. *)
Definition rss_failure {World : Type} (v : @rss_result World) : Prop :=
  exists (w : World) (e : error), v = (w, ([], Some e)).

(** ** strings.Fields *)

(** Go's [unicode.IsSpace]: the Latin-1 cases of its [switch], then the
    [White_Space] range table. *)
Definition isSpace (x : rune) : bool :=
  if (0 <=? x) && (x <=? 255) then
    (x =? 9) || (x =? 10) || (x =? 11) || (x =? 12) || (x =? 13)
    || (x =? 32) || (x =? 133) || (x =? 160)
  else
    (x =? 5760) || ((8192 <=? x) && (x <=? 8202)) || (x =? 8232)
    || (x =? 8233) || (x =? 8239) || (x =? 8287) || (x =? 12288).

(** The scan of [strings.FieldsFunc]: [field] is the field being read
    ([start >= 0] in Go), closed at the next white space or at the end. *)
Fixpoint fields_scan (field : option gostring) (s : gostring) : list gostring :=
  match s with
  | [] => match field with Some f => [f] | None => [] end
  | x :: s' =>
      if isSpace x then
        match field with
        | Some f => f :: fields_scan None s'
        | None => fields_scan None s'
        end
      else
        fields_scan (Some (match field with Some f => f ++ [x] | None => [x] end)) s'
  end.

(** [strings.Fields(s)]: the maximal runs of non-space runes, in order. *)
Definition Fields (s : gostring) : list gostring := fields_scan None s.

(** ** tokenizePromptCommand (tokenize.go, lines 13-20) *)

Section Pipeline.

Context {World : Type}.
Variable LookupEnv : World -> gostring -> option gostring.
Variable ExecuteCommandInShell :
  World -> Z -> gostring -> gostring ->
  World * (Z * gostring * option exec_error).

(** The package constant [shellSubTimeout], declared outside this file. *)
Variable shellSubTimeout : Z.

(** Go's [([]string, error)]; [None] is the [nil] slice, [Some []] the
    empty slice [strings.Fields] makes. *)
Definition tpc_result : Type :=
  (World * (option (list gostring) * option error))%type.

Definition tokenizePromptCommand (command cwdLocation : gostring) (w : World)
  : outcome tpc_result :=
  res <- resolveShellSubstitution LookupEnv ExecuteCommandInShell
           shellSubTimeout command cwdLocation w ;;
  let '(w', (command', err)) := res in
  match err with
  | Some e => Val (w', (None, Some e))
  | None => Val (w', (Some (Fields command'), None))
  end.

End Pipeline.

(** ** The quote-aware tokenizer *)

Definition r_dquote : rune := 34.     (* double quote *)
Definition r_squote : rune := 39.     (* single quote *)
Definition r_backslash : rune := 92.  (* backslash *)

Inductive quote_error : Type :=
| UnterminatedQuote
| DanglingEscape.

Inductive quote_mode : Type :=
| Bare
| SingleQuoted
| DoubleQuoted.

(** The token being read, if one is open. *)
Definition push (cur : option gostring) (x : rune) : option gostring :=
  Some (match cur with Some t => t ++ [x] | None => [x] end).

Definition open_token (cur : option gostring) : option gostring :=
  Some (match cur with Some t => t | None => [] end).

Definition close_token (cur : option gostring) (toks : list gostring)
  : list gostring :=
  match cur with Some t => toks ++ [t] | None => toks end.

(** Go's [([]string, error)] of the tokenizer. *)
Definition twq_result : Type :=
  (option (list gostring) * option quote_error)%type.

(** Modelled from the spec: [tokenizeWithQuotes], the quote-aware tokenizer
    of section 4.3, whose code is not in [tokenize.go] (only its test table
    [Test_tokenizeWithQuotes] is).  The three modes are those of section
    4.3; the escape-pending flag is the look at the next rune after a
    backslash.  In bare mode white space closes the open token, a quote
    opens a token if none is open, a backslash takes the next rune
    literally and is a [DanglingEscape] at the end of the text.  In single
    quotes a backslash followed by the quote gives the quote and any other
    backslash is kept.  In double quotes a backslash followed by a double
    quote or a backslash gives that rune, any other escaped rune is kept
    with its backslash, a backslash at the end is a [DanglingEscape].  A
    closing quote completes the token.  The text ending inside quotes is an
    [UnterminatedQuote]. *)
Fixpoint twq_scan (m : quote_mode) (cur : option gostring)
         (toks : list gostring) (text : gostring) : twq_result :=
  match text with
  | [] =>
      match m with
      | Bare => (Some (close_token cur toks), None)
      | _ => (None, Some UnterminatedQuote)
      end
  | c :: rest =>
      match m with
      | Bare =>
          if isSpace c then twq_scan Bare None (close_token cur toks) rest
          else if c =? r_squote then twq_scan SingleQuoted (open_token cur) toks rest
          else if c =? r_dquote then twq_scan DoubleQuoted (open_token cur) toks rest
          else if c =? r_backslash then
            match rest with
            | [] => (None, Some DanglingEscape)
            | d :: rest' => twq_scan Bare (push cur d) toks rest'
            end
          else twq_scan Bare (push cur c) toks rest
      | SingleQuoted =>
          if c =? r_squote then twq_scan Bare None (close_token cur toks) rest
          else if c =? r_backslash then
            match rest with
            | d :: rest' =>
                if d =? r_squote then twq_scan SingleQuoted (push cur d) toks rest'
                else twq_scan SingleQuoted (push cur c) toks rest
            | [] => twq_scan SingleQuoted (push cur c) toks rest
            end
          else twq_scan SingleQuoted (push cur c) toks rest
      | DoubleQuoted =>
          if c =? r_dquote then twq_scan Bare None (close_token cur toks) rest
          else if c =? r_backslash then
            match rest with
            | [] => (None, Some DanglingEscape)
            | d :: rest' =>
                if (d =? r_dquote) || (d =? r_backslash)
                then twq_scan DoubleQuoted (push cur d) toks rest'
                else twq_scan DoubleQuoted (push (push cur c) d) toks rest'
            end
          else twq_scan DoubleQuoted (push cur c) toks rest
      end
  end.

Definition tokenizeWithQuotes (command : gostring) : twq_result :=
  twq_scan Bare None [] command.

(** A text between double quotes, between single quotes. *)
Definition dq (s : gostring) : gostring := r_dquote :: s ++ [r_dquote].
Definition sq (s : gostring) : gostring := r_squote :: s ++ [r_squote].

(** ** The bracket depth of section 4.1 *)

(** [r[lo:hi]] as a total function: the runes at the indices [lo <= k < hi]. *)
Definition seg (r : list rune) (lo hi : Z) : list rune :=
  firstn (Z.to_nat (hi - lo)) (skipn (Z.to_nat lo) r).

Definition occurrences (x : rune) (l : list rune) : Z :=
  Z.of_nat (count_occ Z.eq_dec l x).

(** The depth counter as the specification words it: 1 at the opening
    bracket, plus one for each occurrence of [open] and minus one for each
    occurrence of [close] among the runes after [openIdx] up to and
    including index [j]. *)
Definition depth (r : list rune) (open close : rune) (openIdx j : Z) : Z :=
  1 + occurrences open (seg r (openIdx + 1) (j + 1))
    - occurrences close (seg r (openIdx + 1) (j + 1)).

(** The same count started anywhere: the depth at index [j] when the depth
    before index [i] is [d]. *)
Definition level_from (r : list rune) (open close : rune) (d i j : Z) : Z :=
  d + occurrences open (seg r i (j + 1)) - occurrences close (seg r i (j + 1)).

(** A command without substitution syntax: no dollar is followed by an
    opening brace or parenthesis. *)
Definition no_substitution (cmdRunes : list rune) : Prop :=
  forall (i : Z) (n : rune),
    rune_at cmdRunes i = Val r_dollar ->
    rune_at cmdRunes (i + 1) = Val n ->
    n <> r_lbrace /\ n <> r_lparen.

(** No substitution syntax starts before index [k]. *)
Definition no_substitution_before (cmdRunes : list rune) (k : Z) : Prop :=
  forall (i : Z) (n : rune),
    i < k ->
    rune_at cmdRunes i = Val r_dollar ->
    rune_at cmdRunes (i + 1) = Val n ->
    n <> r_lbrace /\ n <> r_lparen.

(** The absence of substitution syntax, decided by a scan of the command. *)
Fixpoint no_substitutionb (l : list rune) : bool :=
  match l with
  | x :: l' =>
      match l' with
      | n :: _ =>
          negb ((x =? r_dollar) && ((n =? r_lbrace) || (n =? r_lparen)))
          && no_substitutionb l'
      | [] => true
      end
  | [] => true
  end.


(** A token of [strings.Fields]: not empty, no white space in it. *)
Definition is_field (t : gostring) : Prop :=
  t <> [] /\ Forall (fun x => isSpace x = false) t.

(** ** The turns of the loop, case by case *)

Section ResolverTurns.

Context {World : Type}.
Variable LookupEnv : World -> gostring -> option gostring.
Variable ExecuteCommandInShell :
  World -> Z -> gostring -> gostring ->
  World * (Z * gostring * option exec_error).
Variable subCmdTimeout : Z.
Variable cmdRunes : list rune.
Variable cwdLocation : gostring.

(** The seven ways one turn of the [for] of [resolveShellSubstitution] goes
    from the state [s]: the branches of lines 29-88 with the conditions
    under which the code takes each. *)
Inductive rss_turn (s : @rss_state World)
  : ctl (@rss_state World) (@rss_result World) -> Prop :=
| turn_copy (x : rune) :
    rune_at cmdRunes (rss_i s) = Val x ->
    (x = r_dollar ->
     forall n, rune_at cmdRunes (rss_i s + 1) = Val n ->
               n <> r_lbrace /\ n <> r_lparen) ->
    rss_turn s
      (Continue (mk_rss (rss_i s + 1) (rss_res s ++ [x]) (rss_world s)))
| turn_curly_unmatched :
    rune_at cmdRunes (rss_i s) = Val r_dollar ->
    rune_at cmdRunes (rss_i s + 1) = Val r_lbrace ->
    findEndingParenthesis cmdRunes r_lbrace r_rbrace (rss_i s + 1)
    = Val (len cmdRunes) ->
    rss_turn s (Return (rss_world s, ([], Some curlyBracketParMatchError)))
| turn_env_missing (e : Z) :
    rune_at cmdRunes (rss_i s) = Val r_dollar ->
    rune_at cmdRunes (rss_i s + 1) = Val r_lbrace ->
    findEndingParenthesis cmdRunes r_lbrace r_rbrace (rss_i s + 1) = Val e ->
    rss_i s + 1 < e < len cmdRunes ->
    LookupEnv (rss_world s) (seg cmdRunes (rss_i s + 2) e) = None ->
    rss_turn s
      (Return (rss_world s,
               ([], Some (envVarNotFoundError (seg cmdRunes (rss_i s + 2) e)))))
| turn_env_found (e : Z) (value : gostring) :
    rune_at cmdRunes (rss_i s) = Val r_dollar ->
    rune_at cmdRunes (rss_i s + 1) = Val r_lbrace ->
    findEndingParenthesis cmdRunes r_lbrace r_rbrace (rss_i s + 1) = Val e ->
    rss_i s + 1 < e < len cmdRunes ->
    LookupEnv (rss_world s) (seg cmdRunes (rss_i s + 2) e) = Some value ->
    rss_turn s (Continue (mk_rss (e + 1) (rss_res s ++ value) (rss_world s)))
| turn_round_unmatched :
    rune_at cmdRunes (rss_i s) = Val r_dollar ->
    rune_at cmdRunes (rss_i s + 1) = Val r_lparen ->
    findEndingParenthesis cmdRunes r_lparen r_rparen (rss_i s + 1)
    = Val (len cmdRunes) ->
    rss_turn s (Return (rss_world s, ([], Some bracketParMatchError)))
| turn_exec_failed (e : Z) (w' : World) (output : gostring)
                   (err : option exec_error) :
    rune_at cmdRunes (rss_i s) = Val r_dollar ->
    rune_at cmdRunes (rss_i s + 1) = Val r_lparen ->
    findEndingParenthesis cmdRunes r_lparen r_rparen (rss_i s + 1) = Val e ->
    rss_i s + 1 < e < len cmdRunes ->
    ExecuteCommandInShell (rss_world s) subCmdTimeout cwdLocation
      (seg cmdRunes (rss_i s + 2) e) = (w', (-1, output, err)) ->
    rss_turn s
      (Return (w', ([], Some (couldNotExecuteError
                                (seg cmdRunes (rss_i s + 2) e) err))))
| turn_exec_ok (e : Z) (w' : World) (retCode : Z) (output : gostring)
               (err : option exec_error) :
    rune_at cmdRunes (rss_i s) = Val r_dollar ->
    rune_at cmdRunes (rss_i s + 1) = Val r_lparen ->
    findEndingParenthesis cmdRunes r_lparen r_rparen (rss_i s + 1) = Val e ->
    rss_i s + 1 < e < len cmdRunes ->
    ExecuteCommandInShell (rss_world s) subCmdTimeout cwdLocation
      (seg cmdRunes (rss_i s + 2) e) = (w', (retCode, output, err)) ->
    retCode <> -1 ->
    rss_turn s (Continue (mk_rss (e + 1) (rss_res s ++ output) w')).

End ResolverTurns.

(** ** Properly nested texts *)

(** A text in which the brackets [open] and [close] are properly nested:
    empty, or a rune that is neither bracket before a nested text, or a
    nested text between brackets before a nested text. *)
Inductive nested (open close : rune) : list rune -> Prop :=
| nested_nil : nested open close []
| nested_other (x : rune) (l : list rune) :
    x <> open -> x <> close -> nested open close l ->
    nested open close (x :: l)
| nested_pair (l1 l2 : list rune) :
    nested open close l1 -> nested open close l2 ->
    nested open close (open :: l1 ++ close :: l2).

(** The last rune of [a] is a dollar and the first of [b] an opening brace
    or parenthesis: put side by side they start a substitution that neither
    holds. *)
Definition splits_span (a b : list rune) : Prop :=
  rune_at a (len a - 1) = Val r_dollar
  /\ (rune_at b 0 = Val r_lbrace \/ rune_at b 0 = Val r_lparen).

(** Go's [strings.Join(toks, " ")]. *)
Fixpoint join_space (toks : list gostring) : gostring :=
  match toks with
  | [] => []
  | [t] => t
  | t :: rest => t ++ 32 :: join_space rest
  end.

(** The state [s] of the loop over a text, seen from the loop over that
    text with [k] runes in front of it that gave the output [pre]. *)
Definition rss_shift {World : Type} (k : Z) (pre : gostring)
           (s : @rss_state World) : @rss_state World :=
  mk_rss (k + rss_i s) (pre ++ rss_res s) (rss_world s).

Definition ctl_shift {World : Type} (k : Z) (pre : gostring)
           (c : ctl (@rss_state World) (@rss_result World))
  : ctl (@rss_state World) (@rss_result World) :=
  match c with
  | Continue s => Continue (rss_shift k pre s)
  | Return v => Return v
  end.

(** ** Terminal cell size (pkg/file_preview/utils.go) *)

(** In this part a Go [string] is its sequence of bytes, on which
    [strings.Contains], [strings.TrimPrefix], [strings.Split] and
    [strconv.Atoi] work. *)
Module FilePreview.

Definition DefaultPixelsPerColumn : Z := 10.
Definition DefaultPixelsPerRow : Z := 20.

Record TerminalCellSize : Type := mkCellSize {
  PixelsPerColumn : Z;
  PixelsPerRow : Z
}.

(** [l[i]] for a slice of strings. *)
Definition elem_at {A : Type} (l : list A) (i : Z) : outcome A :=
  if (0 <=? i) && (i <? len l) then
    match nth_error l (Z.to_nat i) with
    | Some x => Val x
    | None => Panic
    end
  else Panic.

(** Go's [strings.HasPrefix], [strings.Contains], [strings.TrimPrefix]. *)
Fixpoint HasPrefix (s prefix : list Z) {struct prefix} : bool :=
  match prefix with
  | [] => true
  | p :: prefix' =>
      match s with
      | [] => false
      | x :: s' => (x =? p) && HasPrefix s' prefix'
      end
  end.

Fixpoint Contains (s substr : list Z) : bool :=
  HasPrefix s substr
  || match s with
     | [] => false
     | _ :: s' => Contains s' substr
     end.

Definition TrimPrefix (s prefix : list Z) : list Z :=
  if HasPrefix s prefix then skipn (List.length prefix) s else s.

(** Go's [strings.Split(s, sep)] for a separator of one byte, as the code
    calls it: the texts between the separators, one more than there are
    separators. *)
Fixpoint Split (s : list Z) (sep : Z) : list (list Z) :=
  match s with
  | [] => [[]]
  | x :: s' =>
      if x =? sep then [] :: Split s' sep
      else match Split s' sep with
           | part :: parts => (x :: part) :: parts
           | [] => [[x]]
           end
  end.

(** The value of a text of decimal digits read after [acc], if it is
    one. *)
Fixpoint digits_value (acc : Z) (s : list Z) : option Z :=
  match s with
  | [] => Some acc
  | c :: s' =>
      if (48 <=? c) && (c <=? 57) then digits_value (acc * 10 + (c - 48)) s'
      else None
  end.

(** Go's [strconv.Atoi] on a 64-bit platform; [None] is a non-nil error:
    an optional sign, then at least one digit and digits only, the value
    within the range of [int]. *)
Definition Atoi (s : list Z) : option Z :=
  match s with
  | [] => None
  | c :: rest =>
      let neg := c =? 45 in
      let digits := if (c =? 45) || (c =? 43) then rest else s in
      match digits with
      | [] => None
      | _ :: _ =>
          match digits_value 0 digits with
          | Some n =>
              let v := if neg then - n else n in
              if (- 2 ^ 63 <=? v) && (v <=? 2 ^ 63 - 1) then Some v else None
          | None => None
          end
      end
  end.

(** ["\x1b[6;"] *)
Definition csi_reply_prefix : list Z := [27; 91; 54; 59].

Definition r_semicolon : Z := 59.  (* ';' *)
Definition r_t : Z := 116.         (* 't' *)

(** parseCSI16tResponse, lines 143-170. *)
Definition parseCSI16tResponse (response : list Z) : outcome (Z * Z * bool) :=
  if negb (Contains response csi_reply_prefix) then Val (0, 0, false)
  else
    let parts := Split (TrimPrefix response csi_reply_prefix) r_semicolon in
    if len parts <? 2 then Val (0, 0, false)
    else
      heightStr <- elem_at parts 0 ;;
      p1 <- elem_at parts 1 ;;
      let widthParts := Split p1 r_t in
      if len widthParts <? 1 then Val (0, 0, false)
      else
        widthStr <- elem_at widthParts 0 ;;
        match Atoi heightStr, Atoi widthStr with
        | Some h, Some w =>
            if (h <=? 0) || (w <=? 0) then Val (0, 0, false)
            else Val (w, h, true)
        | _, _ => Val (0, 0, false)
        end.

(** What the [select] of [DetectTerminalCellSize] sees: the timeout, or
    what the goroutine sends, the empty string after a failed read or the
    bytes read. *)
Inductive terminal_reply : Type :=
| ReplyTimeout
| ReplyReadError
| ReplyBytes (response : list Z).

Definition esc_save_cursor : list Z := [27; 91; 115].          (* "\x1b[s" *)
Definition esc_request_size : list Z := [27; 91; 49; 54; 116]. (* "\x1b[16t" *)
Definition esc_restore_cursor : list Z := [27; 91; 117].       (* "\x1b[u" *)

Definition default_cell_size : TerminalCellSize :=
  mkCellSize DefaultPixelsPerColumn DefaultPixelsPerRow.

(** [TerminalCapabilities]: the cell size and whether the [sync.Once] has
    run. *)
Record TerminalCapabilities : Type := mkCaps {
  cellSize : TerminalCellSize;
  cellSizeInit : bool
}.

Definition NewTerminalCapabilities : TerminalCapabilities :=
  mkCaps default_cell_size false.

(** The error of a call on [os.Stdout], with its message. *)
Inductive io_error : Type :=
| IoError (msg : list Z).

Section Terminal.

(** The terminal behind [os.Stdout]. *)
Context {Stdout : Type}.

(** [os.Stdout.WriteString] and [os.Stdout.Sync]: the terminal after the
    call, and the error when the call failed.  What reaches the terminal
    of a string whose write fails is the terminal's matter. *)
Variable WriteString : Stdout -> list Z -> Stdout * option io_error.
Variable Sync : Stdout -> Stdout * option io_error.

(** DetectTerminalCellSize, lines 73-139: the terminal after the call and
    the size returned.  The error of a write (lines 75-77, 80-82, 108-110,
    118-120) or of the sync (lines 83-85) is only logged: the call goes on
    from the terminal as that call left it, as it does when the call
    succeeds.  The calls of [slog] are left out. *)
Definition DetectTerminalCellSize (out : Stdout) (reply : terminal_reply)
  : outcome (Stdout * TerminalCellSize) :=
  let out := fst (WriteString out esc_save_cursor) in
  let out := fst (WriteString out esc_request_size) in
  let out := fst (Sync out) in
  match reply with
  | ReplyTimeout =>
      let out := fst (WriteString out esc_restore_cursor) in
      Val (out, default_cell_size)
  | _ =>
      let response :=
        match reply with ReplyBytes s => s | _ => [] end in
      let out := fst (WriteString out esc_restore_cursor) in
      res <- parseCSI16tResponse response ;;
      let '(width, height, ok) := res in
      if ok then Val (out, mkCellSize width height)
      else Val (out, default_cell_size)
  end.

(** GetTerminalCellSize, lines 60-69: the capabilities after the call, the
    terminal after the call and the size returned.  [reply] is what the
    terminal answers if it is asked. *)
Definition GetTerminalCellSize (tc : TerminalCapabilities) (out : Stdout)
           (reply : terminal_reply)
  : outcome (TerminalCapabilities * Stdout * TerminalCellSize) :=
  if cellSizeInit tc then Val (tc, out, cellSize tc)
  else
    det <- DetectTerminalCellSize out reply ;;
    let '(out', size) := det in
    Val (mkCaps size true, out', size).

(** The terminal after the four calls of [DetectTerminalCellSize] on it:
    save the cursor, request the size, sync, restore the cursor. *)
Definition stdout_after_detect (out : Stdout) : Stdout :=
  fst (WriteString
         (fst (Sync
                 (fst (WriteString (fst (WriteString out esc_save_cursor))
                         esc_request_size))))
         esc_restore_cursor).

End Terminal.

(** Two terminals for the examples, each the list of the strings that have
    reached it: one that takes every string, and one on which every call
    fails and that nothing reaches. *)
Definition taking_WriteString (out : list (list Z)) (s : list Z)
  : list (list Z) * option io_error := (out ++ [s], None).
Definition taking_Sync (out : list (list Z))
  : list (list Z) * option io_error := (out, None).
Definition failing_WriteString (out : list (list Z)) (s : list Z)
  : list (list Z) * option io_error := (out, Some (IoError (str "EIO"))).
Definition failing_Sync (out : list (list Z))
  : list (list Z) * option io_error := (out, Some (IoError (str "EIO"))).

(** A text [Atoi] reads as the positive number [n]. *)
Definition reads_as (s : list Z) (n : Z) : Prop := Atoi s = Some n /\ 0 < n.

(** The text before the first [sep] of [s], all of [s] when there is
    none. *)
Fixpoint upto (sep : Z) (s : list Z) : list Z :=
  match s with
  | [] => []
  | x :: s' => if x =? sep then [] else x :: upto sep s'
  end.

End FilePreview.

(** ** Concrete collaborators for the examples *)

Module Demo.

(** The world is the list of the shell commands run so far, latest
    first. *)
Definition World : Type := list gostring.

Definition same (a b : gostring) : bool :=
  if list_eq_dec Z.eq_dec a b then true else false.

(** The environment of the tests: [testEnvValues]. *)
Definition LookupEnv (_ : World) (name : gostring) : option gostring :=
  if same name (str "SPF_TEST_ENV_VAR1") then Some (str "1")
  else if same name (str "SPF_TEST_ENV_VAR2") then Some (str "hello")
  else if same name (str "SPF_TEST_ENV_VAR3") then Some (str "")
  else None.

Definition newline : gostring := [10].

(** A shell that knows a few commands: [echo abc] prints, [true] prints
    nothing, [ls nowhere] prints a complaint and exits with status 2,
    [sleep 2] runs into the deadline after printing [zz], and anything
    else cannot be started. *)
Definition ExecuteCommandInShell (w : World) (timeout : Z)
           (cwd subCmd : gostring)
  : World * (Z * gostring * option exec_error) :=
  let w' := subCmd :: w in
  if same subCmd (str "echo abc")
  then (w', (0, str "abc" ++ newline, None))
  else if same subCmd (str "true")
  then (w', (0, [], None))
  else if same subCmd (str "ls nowhere")
  then (w', (2, str "ls: nowhere" ++ newline,
             Some (ExecFailure (str "exit status 2"))))
  else if same subCmd (str "sleep 2")
  then (w', (-1, str "zz", Some DeadlineExceeded))
  else (w', (-1, [], Some (ExecFailure (str "not started")))).

Definition resolve (command : gostring) :=
  resolveShellSubstitution LookupEnv ExecuteCommandInShell 1000 command
    (str "/tmp") [].

Definition tokenize (command : gostring) :=
  tokenizePromptCommand LookupEnv ExecuteCommandInShell 1000 command
    (str "/tmp") [].

End Demo.

(** The table of [Test_findEndingParenthesis]. *)
Example fep_test_empty :
  findEndingParenthesis (str "") r_lparen r_rparen 0 = Val (-1).
Proof. reflexivity. Qed.

Example fep_test_invalid :
  findEndingParenthesis (str "abc") r_lparen r_rparen 0 = Val (-1).
Proof. reflexivity. Qed.

Example fep_test_simple :
  findEndingParenthesis (str "abc(def)") r_lparen r_rparen 3 = Val 7.
Proof. reflexivity. Qed.

Example fep_test_nesting1 :
  findEndingParenthesis (str "abc(d(e{f})gh)") r_lparen r_rparen 3 = Val 13.
Proof. reflexivity. Qed.

Example fep_test_nesting2 :
  findEndingParenthesis (str "abc(d(e{f})gh)") r_lparen r_rparen 5 = Val 10.
Proof. reflexivity. Qed.

Example fep_test_nesting3 :
  findEndingParenthesis (str "abc(d(e{f(x}))gh)") r_lbrace r_rbrace 7 = Val 11.
Proof. reflexivity. Qed.

Example fep_test_unclosed1 :
  findEndingParenthesis (str "abc(def}") r_lparen r_rparen 3 = Val 8.
Proof. reflexivity. Qed.

Example fep_test_unclosed2 :
  findEndingParenthesis (str "abc((d(e{f})gh)") r_lparen r_rparen 3 = Val 15.
Proof. reflexivity. Qed.

Example fep_test_asymmetric :
  findEndingParenthesis (str "abc((d(e{f}>gh)") r_lbrace 62 8 = Val 11.
Proof. reflexivity. Qed.

(** Rows of [Test_resolveShellSubstitution], on the demo collaborators. *)
Example rss_test_empty : Demo.resolve (str "") = Val ([], ([], None)).
Proof. reflexivity. Qed.

Example rss_test_plain :
  Demo.resolve (str "   a b c $%^ () {} ")
  = Val ([], (str "   a b c $%^ () {} ", None)).
Proof. reflexivity. Qed.

Example rss_test_ill_formed1 :
  Demo.resolve (str "abc $(abc") = Val ([], ([], Some bracketParMatchError)).
Proof. reflexivity. Qed.

Example rss_test_ill_formed2 :
  Demo.resolve (str "abc $(echo abc) syt ${ sdfc ( {)}")
  = Val ([str "echo abc"], ([], Some curlyBracketParMatchError)).
Proof. reflexivity. Qed.

Example rss_test_basic :
  Demo.resolve (str "$(echo abc)")
  = Val ([str "echo abc"], (str "abc" ++ Demo.newline, None)).
Proof. reflexivity. Qed.

Example rss_test_multiple :
  Demo.resolve (str "$(echo abc) ${SPF_TEST_ENV_VAR2}")
  = Val ([str "echo abc"], (str "abc" ++ Demo.newline ++ str " hello", None)).
Proof. reflexivity. Qed.

Example rss_test_no_env :
  Demo.resolve (str "${SPF_TEST_ENV_VAR4}")
  = Val ([], ([], Some (envVarNotFoundError (str "SPF_TEST_ENV_VAR4")))).
Proof. reflexivity. Qed.

Example rss_test_shell_inside_env :
  Demo.resolve (str "${$(pwd)}")
  = Val ([], ([], Some (envVarNotFoundError (str "$(pwd)")))).
Proof. reflexivity. Qed.

Example rss_test_empty_output :
  Demo.resolve (str "cd abc $(true)") = Val ([str "true"], (str "cd abc ", None)).
Proof. reflexivity. Qed.

(** Rows of [Test_tokenizePromptCommand]. *)
Example tpc_test_empty : Demo.tokenize (str "") = Val ([], (Some [], None)).
Proof. reflexivity. Qed.

Example tpc_test_whitespace :
  Demo.tokenize (str "    a b  c  ")
  = Val ([], (Some [str "a"; str "b"; str "c"], None)).
Proof. reflexivity. Qed.

Example tpc_test_single :
  Demo.tokenize (str "()") = Val ([], (Some [str "()"], None)).
Proof. reflexivity. Qed.

Example tpc_test_special :
  Demo.tokenize (str "() " ++ [9; 10; 9] ++ str " a $5^&*" ++ [11; 7; 10; 61612])
  = Val ([], (Some [str "()"; str "a"; str "$5^&*"; [7]; [61612]], None)).
Proof. reflexivity. Qed.

(** Rows of [Test_tokenizeWithQuotes], on the tokenizer modelled from the
    specification. *)

Example twq_test_empty : tokenizeWithQuotes (str "") = (Some [], None).
Proof. reflexivity. Qed.

Example twq_test_whitespace :
  tokenizeWithQuotes (str "    a   b   c    ")
  = (Some [str "a"; str "b"; str "c"], None).
Proof. reflexivity. Qed.

Example twq_test_tab_newline :
  tokenizeWithQuotes (str "a" ++ [9] ++ str "b" ++ [10] ++ str "c")
  = (Some [str "a"; str "b"; str "c"], None).
Proof. reflexivity. Qed.

Example twq_test_mixed :
  tokenizeWithQuotes (str "command " ++ dq (str "arg with spaces") ++ str " normal")
  = (Some [str "command"; str "arg with spaces"; str "normal"], None).
Proof. reflexivity. Qed.

Example twq_test_empty_double :
  tokenizeWithQuotes (str "command " ++ dq []) = (Some [str "command"; []], None).
Proof. reflexivity. Qed.

Example twq_test_empty_single :
  tokenizeWithQuotes (str "command " ++ sq []) = (Some [str "command"; []], None).
Proof. reflexivity. Qed.

Example twq_test_single_in_double :
  tokenizeWithQuotes (dq (str "it's working")) = (Some [str "it's working"], None).
Proof. reflexivity. Qed.

Example twq_test_double_in_single :
  tokenizeWithQuotes (sq (str "he said " ++ dq (str "hello")))
  = (Some [str "he said " ++ dq (str "hello")], None).
Proof. reflexivity. Qed.

Example twq_test_escaped_double :
  tokenizeWithQuotes (dq (str "escaped \" ++ [r_dquote] ++ str " quote"))
  = (Some [str "escaped " ++ [r_dquote] ++ str " quote"], None).
Proof. reflexivity. Qed.

Example twq_test_escaped_single :
  tokenizeWithQuotes (sq (str "can\'t")) = (Some [str "can't"], None).
Proof. reflexivity. Qed.

Example twq_test_escaped_backslash :
  tokenizeWithQuotes (dq (str "path\\to\\file")) = (Some [str "path\to\file"], None).
Proof. reflexivity. Qed.

Example twq_test_backslashes :
  tokenizeWithQuotes (dq (str "\\\\")) = (Some [str "\\"], None).
Proof. reflexivity. Qed.

Example twq_test_escape_outside :
  tokenizeWithQuotes (str "a\ b c") = (Some [str "a b"; str "c"], None).
Proof. reflexivity. Qed.

Example twq_test_special :
  tokenizeWithQuotes (dq (str "$HOME") ++ str " " ++ sq (str "${USER}")
                      ++ str " " ++ dq (str "$(pwd)"))
  = (Some [str "$HOME"; str "${USER}"; str "$(pwd)"], None).
Proof. reflexivity. Qed.

Example twq_test_unmatched_double :
  tokenizeWithQuotes (str "abcd " ++ [r_dquote] ++ str "sdf")
  = (None, Some UnterminatedQuote).
Proof. reflexivity. Qed.

Example twq_test_unmatched_single :
  tokenizeWithQuotes ([r_dquote] ++ str "abcd'") = (None, Some UnterminatedQuote).
Proof. reflexivity. Qed.

Example twq_test_trailing_escape :
  tokenizeWithQuotes (str "abc\") = (None, Some DanglingEscape).
Proof. reflexivity. Qed.

Example twq_test_escape_end_quoted :
  tokenizeWithQuotes ([r_dquote] ++ str "abc\") = (None, Some DanglingEscape).
Proof. reflexivity. Qed.

Example twq_test_multiple_quoted :
  tokenizeWithQuotes (dq (str "first part") ++ str " " ++ dq (str "second part")
                      ++ str " third")
  = (Some [str "first part"; str "second part"; str "third"], None).
Proof. reflexivity. Qed.

Example twq_test_mixed_no_spaces :
  tokenizeWithQuotes (dq (str "hello") ++ sq (str "world"))
  = (Some [str "hello"; str "world"], None).
Proof. reflexivity. Qed.

Example twq_test_invalid_escape :
  tokenizeWithQuotes (dq (str "hello\nworld")) = (Some [str "hello\nworld"], None).
Proof. reflexivity. Qed.

(** * Properties *)

(** ** Loops and fuel *)

Section LoopFacts.

Context {S R : Type}.
Variable cond : S -> bool.
Variable body : S -> outcome (ctl S R).

(** A loop that ended keeps its result when given more fuel. *)
Lemma loop_more_fuel (k : nat) :
  forall (s : S) (c : ctl S R),
    loop k cond body s = Val c ->
    forall k' : nat, (k <= k')%nat -> loop k' cond body s = Val c.
Proof.
  induction k as [|k IH]; intros s c Hk k' Hle.
  - destruct k'; simpl in *; destruct (cond s); congruence.
  - destruct k' as [|k']; [lia|].
    simpl in *. destruct (cond s); [|assumption].
    destruct (body s) as [[s1|v]| |]; simpl in *; try congruence.
    apply IH; [assumption|lia].
Qed.

Lemma loop_deterministic (k k' : nat) (s : S) (c c' : ctl S R) :
  loop k cond body s = Val c -> loop k' cond body s = Val c' -> c = c'.
Proof.
  intros H H'.
  apply loop_more_fuel with (k' := Nat.max k k') in H; [|lia].
  apply loop_more_fuel with (k' := Nat.max k k') in H'; [|lia].
  congruence.
Qed.

Lemma loop_turn (k : nat) (s s' : S) :
  cond s = true -> body s = Val (Continue s') ->
  loop (Datatypes.S k) cond body s = loop k cond body s'.
Proof. intros Hc Hb. simpl. rewrite Hc, Hb. reflexivity. Qed.

Lemma loop_return (k : nat) (s : S) (v : R) :
  cond s = true -> body s = Val (Return v) ->
  loop (Datatypes.S k) cond body s = Val (Return v).
Proof. intros Hc Hb. simpl. rewrite Hc, Hb. reflexivity. Qed.

Lemma loop_exit (k : nat) (s : S) :
  cond s = false -> loop k cond body s = Val (Continue s).
Proof. intros Hc. destruct k; simpl; rewrite Hc; reflexivity. Qed.

End LoopFacts.

(** ** Indexing and slicing *)

Lemma len_nonneg {A : Type} (r : list A) : 0 <= len r.
Proof. unfold len. lia. Qed.

Lemma rune_at_Val (r : list rune) (i : Z) (x : rune) :
  rune_at r i = Val x <->
  0 <= i < len r /\ nth_error r (Z.to_nat i) = Some x.
Proof.
  unfold rune_at.
  destruct (0 <=? i) eqn:H0; destruct (i <? len r) eqn:H1; simpl;
    try (split; [discriminate | intros [? _]; lia]).
  destruct (nth_error r (Z.to_nat i)) eqn:Hn.
  - split; [intros [= ->]; split; [lia|reflexivity] | intros [_ [= ->]]; reflexivity].
  - split; [discriminate | intros [_ ?]; discriminate].
Qed.

Lemma rune_at_in_range (r : list rune) (i : Z) :
  0 <= i < len r -> exists x, rune_at r i = Val x.
Proof.
  intros Hi.
  destruct (nth_error r (Z.to_nat i)) as [x|] eqn:Hn.
  - exists x. apply rune_at_Val. auto.
  - apply nth_error_None in Hn. unfold len in Hi. lia.
Qed.

Lemma rune_at_range (r : list rune) (i : Z) (x : rune) :
  rune_at r i = Val x -> 0 <= i < len r.
Proof. intros H. apply rune_at_Val in H. tauto. Qed.

Lemma skipn_nth_error {A : Type} (l : list A) :
  forall (n : nat) (x : A),
    nth_error l n = Some x -> skipn n l = x :: skipn (Datatypes.S n) l.
Proof.
  induction l as [|a l IH]; intros [|n] x H; simpl in *; try discriminate.
  - congruence.
  - apply IH in H. rewrite H. reflexivity.
Qed.

Lemma firstn_snoc {A : Type} (l : list A) :
  forall (n : nat) (x : A),
    nth_error l n = Some x -> firstn (Datatypes.S n) l = firstn n l ++ [x].
Proof.
  induction l as [|a l IH]; intros [|n] x H; simpl in *; try discriminate.
  - congruence.
  - f_equal. apply IH. exact H.
Qed.

Lemma seg_cons (r : list rune) (i j : Z) (x : rune) :
  rune_at r i = Val x -> i <= j ->
  seg r i (j + 1) = x :: seg r (i + 1) (j + 1).
Proof.
  intros Hx Hij. apply rune_at_Val in Hx. destruct Hx as [Hi Hn].
  unfold seg.
  replace (Z.to_nat (j + 1 - i)) with (Datatypes.S (Z.to_nat (j + 1 - (i + 1)))) by lia.
  rewrite (skipn_nth_error _ _ _ Hn). simpl.
  replace (Z.to_nat (i + 1)) with (Datatypes.S (Z.to_nat i)) by lia.
  reflexivity.
Qed.

Lemma seg_nil (r : list rune) (i : Z) : seg r i i = [].
Proof. unfold seg. rewrite Z.sub_diag. reflexivity. Qed.

Lemma slice_seg (r : list rune) (lo hi : Z) :
  0 <= lo <= hi -> hi <= len r -> slice r lo hi = Val (seg r lo hi).
Proof.
  intros H1 H2. unfold slice, seg.
  replace ((0 <=? lo) && (lo <=? hi) && (hi <=? len r)) with true; [reflexivity|].
  symmetry. rewrite !andb_true_iff. repeat split; lia.
Qed.

Lemma occurrences_cons (x y : rune) (l : list rune) :
  occurrences x (y :: l) = (if y =? x then 1 else 0) + occurrences x l.
Proof.
  unfold occurrences. simpl.
  destruct (Z.eq_dec y x) as [->|Hne].
  - rewrite Z.eqb_refl. lia.
  - apply Z.eqb_neq in Hne. rewrite Hne. lia.
Qed.

Lemma occurrences_nonneg (x : rune) (l : list rune) : 0 <= occurrences x l.
Proof. unfold occurrences. lia. Qed.

(** ** findEndingParenthesis *)

Section FindEndingFacts.

Variable r : list rune.
Variables open close : rune.

Local Notation "'level' d i j" := (level_from r open close d i j)
  (at level 10, d at level 9, i at level 9, j at level 9).

Lemma level_next (d i j x : Z) :
  rune_at r i = Val x -> i <= j ->
  level d i j
  = level (d + (if x =? open then 1 else 0) - (if x =? close then 1 else 0)) (i + 1) j.
Proof.
  intros Hx Hij. unfold level_from.
  rewrite (seg_cons _ _ _ _ Hx Hij), !occurrences_cons. lia.
Qed.

Lemma level_here (d i x : Z) :
  rune_at r i = Val x ->
  level d i i = d + (if x =? open then 1 else 0) - (if x =? close then 1 else 0).
Proof.
  intros Hx. unfold level_from.
  rewrite (seg_cons _ _ _ _ Hx (Z.le_refl i)), !occurrences_cons, seg_nil.
  unfold occurrences. simpl. lia.
Qed.

(** The loop of lines 102-111, from any state the code can be in: the
    counter [oc] is positive and, unless [open = close], it is the depth
    [d] of the specification. *)
Lemma fep_scan (fuel : nat) :
  forall i oc d : Z,
    0 <= i <= len r -> len r - i <= Z.of_nat fuel ->
    0 < oc -> 0 < d -> (open <> close -> oc = d) ->
    exists e oc' : Z,
      while fuel (fep_cond r) (fep_body r open close) (i, oc) = Val (e, oc')
      /\ i <= e <= len r
      /\ (forall j, i <= j < e -> 0 < level d i j)
      /\ (e < len r -> level d i e = 0 /\ rune_at r e = Val close).
Proof.
  induction fuel as [|k IH]; intros i oc d Hi Hfuel Hoc Hd Hrel.
  - exists i, oc. simpl.
    replace (i <? len r) with false by (symmetry; apply Z.ltb_ge; lia).
    simpl. repeat split; try lia.
  - destruct (Z.eq_dec i (len r)) as [Hend|Hin].
    + exists i, oc. simpl.
      replace (i <? len r) with false by (symmetry; apply Z.ltb_ge; lia).
      simpl. repeat split; try lia.
    + destruct (rune_at_in_range r i) as [x Hx]; [lia|].
      (* the depth of the specification after the rune at [i] *)
      set (d' := d + (if x =? open then 1 else 0) - (if x =? close then 1 else 0)).
      assert (Hnext : forall j, i < j -> level d i j = level d' (i + 1) j).
      { intros j Hj. apply level_next; [exact Hx|lia]. }
      assert (Hhere : level d i i = d') by (apply level_here; exact Hx).
      simpl.
      replace (i <? len r) with true by (symmetry; apply Z.ltb_lt; lia).
      replace (oc =? 0) with false by (symmetry; apply Z.eqb_neq; lia).
      simpl. rewrite Hx. simpl.
      (* the counter of the code after the rune at [i] *)
      set (oc1 := if x =? open then oc + 1 else if x =? close then oc - 1 else oc).
      assert (Hoc1 : 0 <= oc1 /\ (oc1 = 0 -> d' = 0 /\ x = close)
                     /\ (oc1 <> 0 -> 0 < d' /\ (open <> close -> oc1 = d'))).
      { subst oc1 d'.
        destruct (Z.eqb_spec x open) as [Hxo|Hxo];
          destruct (Z.eqb_spec x close) as [Hxc|Hxc].
        - split; [lia|]. split; [lia|]. intros _. split; [lia|].
          intros Hne. congruence.
        - split; [lia|]. split; [lia|]. intros _. split; [lia|].
          intros Hne. specialize (Hrel Hne). lia.
        - assert (Hne : open <> close) by congruence.
          specialize (Hrel Hne). split; [lia|]. split; [intros; split; [lia|assumption]|].
          intros Hnz. split; [lia|]. intros _. lia.
        - split; [lia|]. split; [lia|]. intros _. split; [lia|].
          intros Hne. specialize (Hrel Hne). lia. }
      destruct Hoc1 as (Hoc1 & Hz & Hnz).
      destruct (Z.eq_dec oc1 0) as [H0|H0].
      * (* the depth came to 0: the loop stops at [i] *)
        rewrite H0. simpl. exists i, 0. split.
        { destruct k; simpl;
            replace (i <? len r) with true by (symmetry; apply Z.ltb_lt; lia);
            reflexivity. }
        split; [lia|]. split; [intros j Hj; lia|].
        intros _. destruct (Hz H0) as [Hd0 Hxc]. split; [lia|].
        subst x. exact Hx.
      * replace (oc1 =? 0) with false by (symmetry; apply Z.eqb_neq; lia).
        simpl. destruct (Hnz H0) as [Hd' Hrel'].
        destruct (IH (i + 1) oc1 d') as (e & oc' & Hw & He & Hpos & Hzero);
          try lia; try assumption.
        exists e, oc'. split; [exact Hw|]. split; [lia|]. split.
        -- intros j Hj. destruct (Z.eq_dec j i) as [->|Hji].
           ++ rewrite Hhere. exact Hd'.
           ++ rewrite Hnext by lia. apply Hpos. lia.
        -- intros Hlt. rewrite Hnext by lia. apply Hzero. exact Hlt.
Qed.

End FindEndingFacts.

Lemma depth_level (r : list rune) (open close : rune) (openIdx j : Z) :
  depth r open close openIdx j = level_from r open close 1 (openIdx + 1) j.
Proof. reflexivity. Qed.

(** The guard of line 96 lets the call through exactly when the rune at
    [openIdx] is [open]. *)
Lemma fep_guard (r : list rune) (open : rune) (openIdx : Z) :
  orM (openIdx <? 0)
    (orM (openIdx >=? len r)
       (x <- rune_at r openIdx ;; Val (negb (x =? open))))
  = Val (match rune_at r openIdx with
         | Val x => negb (x =? open)
         | _ => true
         end).
Proof.
  unfold rune_at.
  destruct (Z.ltb_spec openIdx 0) as [Hneg|Hpos]; simpl.
  - replace (0 <=? openIdx) with false by (symmetry; apply Z.leb_gt; lia).
    reflexivity.
  - replace (0 <=? openIdx) with true by (symmetry; apply Z.leb_le; lia).
    destruct (Z.ltb_spec openIdx (len r)) as [Hlt|Hge].
    + replace (openIdx >=? len r) with false
        by (symmetry; rewrite Z.geb_leb; apply Z.leb_gt; lia).
      simpl.
      destruct (nth_error r (Z.to_nat openIdx)) as [x|] eqn:Hn; [reflexivity|].
      apply nth_error_None in Hn. unfold len in Hlt. lia.
    + replace (openIdx >=? len r) with true
        by (symmetry; rewrite Z.geb_leb; apply Z.leb_le; lia).
      reflexivity.
Qed.

Lemma fep_not_found (r : list rune) (open close : rune) (openIdx : Z) :
  rune_at r openIdx <> Val open ->
  findEndingParenthesis r open close openIdx = Val (-1).
Proof.
  intros Hne. unfold findEndingParenthesis. rewrite fep_guard.
  destruct (rune_at r openIdx) as [x| |]; simpl; try reflexivity.
  destruct (Z.eqb_spec x open) as [->|_]; [congruence|reflexivity].
Qed.

Lemma fep_found (r : list rune) (open close : rune) (openIdx : Z) :
  rune_at r openIdx = Val open ->
  exists e : Z,
    findEndingParenthesis r open close openIdx = Val e
    /\ openIdx < e <= len r
    /\ (forall j, openIdx < j < e -> 0 < depth r open close openIdx j)
    /\ (e < len r ->
        depth r open close openIdx e = 0 /\ rune_at r e = Val close).
Proof.
  intros Hopen. pose proof (rune_at_range _ _ _ Hopen) as Hrange.
  destruct (fep_scan r open close (List.length r) (openIdx + 1) 1 1)
    as (e & oc' & Hw & He & Hpos & Hzero); try lia.
  { unfold len. lia. }
  exists e. unfold findEndingParenthesis. rewrite fep_guard, Hopen, Z.eqb_refl.
  simpl. rewrite Hw. simpl. split; [reflexivity|]. split; [lia|]. split.
  - intros j Hj. rewrite depth_level. apply Hpos. lia.
  - intros Hlt. rewrite depth_level. apply Hzero. exact Hlt.
Qed.

(** C2: called on an index that holds [open], [findEndingParenthesis]
    returns the first later index at which the depth of section 4.1 (1 at
    the opening bracket, one more for each [open], one less for each
    [close]) comes to 0, and that index holds [close]; when the depth stays
    positive to the end it returns [len(r)]; called on an index out of
    bounds or holding another rune it returns -1; and -1 is never
    [len(r)]. *)
Theorem findEndingParenthesis_matching
        (r : list rune) (open close : rune) (openIdx : Z) :
  (rune_at r openIdx = Val open ->
   exists e : Z,
     findEndingParenthesis r open close openIdx = Val e
     /\ openIdx < e <= len r
     /\ (forall j, openIdx < j < e -> 0 < depth r open close openIdx j)
     /\ (e < len r ->
         depth r open close openIdx e = 0 /\ rune_at r e = Val close)
     /\ ((forall j, openIdx < j < len r -> 0 < depth r open close openIdx j) ->
         e = len r))
  /\ (openIdx < 0 \/ len r <= openIdx
      \/ (exists x, rune_at r openIdx = Val x /\ x <> open) ->
      findEndingParenthesis r open close openIdx = Val (-1))
  /\ -1 <> len r.
Proof.
  split; [|split].
  - intros Hopen.
    destruct (fep_found _ _ close _ Hopen) as (e & Hf & He & Hpos & Hzero).
    exists e. split; [exact Hf|]. split; [exact He|]. split; [exact Hpos|].
    split; [exact Hzero|].
    intros Hall. destruct (Z.eq_dec e (len r)) as [|Hne]; [assumption|].
    assert (Hlt : e < len r) by lia.
    destruct (Hzero Hlt) as [H0 _].
    specialize (Hall e ltac:(lia)). lia.
  - intros Hbad. apply fep_not_found. intros Hopen.
    pose proof (rune_at_range _ _ _ Hopen) as Hrange.
    destruct Hbad as [?|[?|(x & Hx & Hne)]]; try lia. congruence.
  - pose proof (len_nonneg r). lia.
Qed.

(** C2 on the nesting rows of [Test_findEndingParenthesis]. *)
Lemma findEndingParenthesis_matching_witness :
  findEndingParenthesis (str "abc(d(e{f})gh)") r_lparen r_rparen 3 = Val 13
  /\ findEndingParenthesis (str "abc((d(e{f})gh)") r_lparen r_rparen 3 = Val 15
  /\ findEndingParenthesis (str "abc") r_lparen r_rparen 0 = Val (-1).
Proof.
  split; [|split].
  - destruct (proj1 (findEndingParenthesis_matching
                       (str "abc(d(e{f})gh)") r_lparen r_rparen 3) eq_refl)
      as (e & He & _).
    vm_compute in He. injection He as <-. reflexivity.
  - destruct (proj1 (findEndingParenthesis_matching
                       (str "abc((d(e{f})gh)") r_lparen r_rparen 3) eq_refl)
      as (e & He & _).
    vm_compute in He. injection He as <-. reflexivity.
  - apply (proj1 (proj2 (findEndingParenthesis_matching
                           (str "abc") r_lparen r_rparen 0))).
    right. right. exists 97. split; [reflexivity|discriminate].
Defined.

(** C9: whatever it is called on, [findEndingParenthesis] returns -1 or an
    index [v] with [openIdx < v <= len(r)], and an index [v < len(r)] it
    returns holds [close]. *)
Theorem findEndingParenthesis_range
        (r : list rune) (open close : rune) (openIdx : Z) :
  exists v : Z,
    findEndingParenthesis r open close openIdx = Val v
    /\ (v = -1
        \/ (openIdx < v <= len r /\ (v < len r -> rune_at r v = Val close))).
Proof.
  destruct (rune_at r openIdx) as [x| |] eqn:Hx.
  - destruct (Z.eq_dec x open) as [->|Hne].
    + destruct (fep_found _ _ close _ Hx) as (e & Hf & He & _ & Hzero).
      exists e. split; [assumption|]. right. split; [assumption|].
      intros Hlt. apply Hzero. assumption.
    + exists (-1). split; [|left; reflexivity].
      apply fep_not_found. congruence.
  - exists (-1). split; [|left; reflexivity].
    apply fep_not_found. congruence.
  - exists (-1). split; [|left; reflexivity].
    apply fep_not_found. congruence.
Qed.

(** ** resolveShellSubstitution: one turn of the loop *)

Section ResolverFacts.

Context {World : Type}.
Variable LookupEnv : World -> gostring -> option gostring.
Variable ExecuteCommandInShell :
  World -> Z -> gostring -> gostring ->
  World * (Z * gostring * option exec_error).
Variable subCmdTimeout : Z.
Variable cmdRunes : list rune.
Variable cwdLocation : gostring.

Local Notation body :=
  (rss_body LookupEnv ExecuteCommandInShell subCmdTimeout cmdRunes cwdLocation).
Local Notation cond := (@rss_cond World cmdRunes).
Local Notation reaches :=
  (rss_reaches LookupEnv ExecuteCommandInShell subCmdTimeout cmdRunes cwdLocation).
Local Notation visits :=
  (rss_visits LookupEnv ExecuteCommandInShell subCmdTimeout cmdRunes cwdLocation).
Local Notation resolve :=
  (resolveShellSubstitution LookupEnv ExecuteCommandInShell subCmdTimeout
     cmdRunes cwdLocation).
Local Notation curly := (rss_curly LookupEnv cmdRunes).
Local Notation round :=
  (rss_round ExecuteCommandInShell subCmdTimeout cmdRunes cwdLocation).

Lemma rss_cond_true (s : @rss_state World) :
  cond s = true <-> rss_i s < len cmdRunes.
Proof. unfold rss_cond. apply Z.ltb_lt. Qed.

Lemma rss_cond_false (s : @rss_state World) :
  cond s = false <-> len cmdRunes <= rss_i s.
Proof. unfold rss_cond. apply Z.ltb_ge. Qed.

(** Line 29 followed by line 31: a dollar before an opening brace. *)
Lemma rss_body_curly (s : @rss_state World) :
  rune_at cmdRunes (rss_i s) = Val r_dollar ->
  rune_at cmdRunes (rss_i s + 1) = Val r_lbrace ->
  body s = curly s.
Proof.
  intros Hd Hn. pose proof (rune_at_range _ _ _ Hn) as Hr.
  unfold rss_body.
  replace (rss_i s + 1 <? len cmdRunes) with true by (symmetry; apply Z.ltb_lt; lia).
  simpl. rewrite Hd. simpl. rewrite Hn. reflexivity.
Qed.

(** Line 29 followed by line 53: a dollar before an opening parenthesis. *)
Lemma rss_body_round (s : @rss_state World) :
  rune_at cmdRunes (rss_i s) = Val r_dollar ->
  rune_at cmdRunes (rss_i s + 1) = Val r_lparen ->
  body s = round s.
Proof.
  intros Hd Hn. pose proof (rune_at_range _ _ _ Hn) as Hr.
  unfold rss_body.
  replace (rss_i s + 1 <? len cmdRunes) with true by (symmetry; apply Z.ltb_lt; lia).
  simpl. rewrite Hd. simpl. rewrite Hn. reflexivity.
Qed.

(** Lines 81-88: every other rune is copied. *)
Lemma rss_body_copy (s : @rss_state World) (x : rune) :
  rune_at cmdRunes (rss_i s) = Val x ->
  (x = r_dollar ->
   forall n, rune_at cmdRunes (rss_i s + 1) = Val n ->
             n <> r_lbrace /\ n <> r_lparen) ->
  body s
  = Val (Continue (mk_rss (rss_i s + 1) (rss_res s ++ [x]) (rss_world s))).
Proof.
  intros Hx Hnot. pose proof (rune_at_range _ _ _ Hx) as Hr.
  unfold rss_body, rss_copy. rewrite Hx.
  destruct (Z.ltb_spec (rss_i s + 1) (len cmdRunes)) as [Hlt|Hge]; simpl;
    [|reflexivity].
  destruct (Z.eqb_spec x r_dollar) as [Hd|Hd]; simpl; [|reflexivity].
  destruct (rune_at_in_range cmdRunes (rss_i s + 1)) as [n Hn]; [lia|].
  rewrite Hn. simpl. destruct (Hnot Hd n Hn) as [Hb Hp].
  apply Z.eqb_neq in Hb, Hp. rewrite Hb, Hp. reflexivity.
Qed.

(** Lines 33-51 once the closing brace is found at [e]. *)
Lemma rss_curly_found (s : @rss_state World) (e : Z) :
  0 <= rss_i s ->
  findEndingParenthesis cmdRunes r_lbrace r_rbrace (rss_i s + 1) = Val e ->
  rss_i s + 1 < e < len cmdRunes ->
  curly s
  = match LookupEnv (rss_world s) (seg cmdRunes (rss_i s + 2) e) with
    | None =>
        Val (Return (rss_world s,
                     ([], Some (envVarNotFoundError (seg cmdRunes (rss_i s + 2) e)))))
    | Some value =>
        Val (Continue (mk_rss (e + 1) (rss_res s ++ value) (rss_world s)))
    end.
Proof.
  intros Hi Hf He. unfold rss_curly. rewrite Hf. simpl.
  replace (e =? -1) with false by (symmetry; apply Z.eqb_neq; lia).
  replace (e =? len cmdRunes) with false by (symmetry; apply Z.eqb_neq; lia).
  rewrite slice_seg by lia. reflexivity.
Qed.

(** Lines 55-80 once the closing parenthesis is found at [e]. *)
Lemma rss_round_found (s : @rss_state World) (e : Z) :
  0 <= rss_i s ->
  findEndingParenthesis cmdRunes r_lparen r_rparen (rss_i s + 1) = Val e ->
  rss_i s + 1 < e < len cmdRunes ->
  round s
  = let '(w', (retCode, output, err)) :=
      ExecuteCommandInShell (rss_world s) subCmdTimeout cwdLocation
        (seg cmdRunes (rss_i s + 2) e) in
    if retCode =? -1 then
      Val (Return (w', ([], Some (couldNotExecuteError
                                    (seg cmdRunes (rss_i s + 2) e) err))))
    else Val (Continue (mk_rss (e + 1) (rss_res s ++ output) w')).
Proof.
  intros Hi Hf He. unfold rss_round. rewrite Hf. simpl.
  replace (e =? -1) with false by (symmetry; apply Z.eqb_neq; lia).
  replace (e =? len cmdRunes) with false by (symmetry; apply Z.eqb_neq; lia).
  rewrite slice_seg by lia. reflexivity.
Qed.

(** Lines 37-39 and 60-62: no closing bracket. *)
Lemma rss_curly_unmatched (s : @rss_state World) :
  findEndingParenthesis cmdRunes r_lbrace r_rbrace (rss_i s + 1)
  = Val (len cmdRunes) ->
  curly s = Val (Return (rss_world s, ([], Some curlyBracketParMatchError))).
Proof.
  intros Hf. unfold rss_curly. rewrite Hf. simpl.
  pose proof (len_nonneg cmdRunes).
  replace (len cmdRunes =? -1) with false by (symmetry; apply Z.eqb_neq; lia).
  rewrite Z.eqb_refl. reflexivity.
Qed.

Lemma rss_round_unmatched (s : @rss_state World) :
  findEndingParenthesis cmdRunes r_lparen r_rparen (rss_i s + 1)
  = Val (len cmdRunes) ->
  round s = Val (Return (rss_world s, ([], Some bracketParMatchError))).
Proof.
  intros Hf. unfold rss_round. rewrite Hf. simpl.
  pose proof (len_nonneg cmdRunes).
  replace (len cmdRunes =? -1) with false by (symmetry; apply Z.eqb_neq; lia).
  rewrite Z.eqb_refl. reflexivity.
Qed.

(** One turn either goes on from a later index or fails. *)
Lemma rss_body_progress (s : @rss_state World) :
  0 <= rss_i s < len cmdRunes ->
  (exists s', body s = Val (Continue s')
              /\ rss_i s < rss_i s' <= len cmdRunes)
  \/ (exists v, body s = Val (Return v) /\ rss_failure v).
Proof.
  intros Hi. destruct (rune_at_in_range cmdRunes (rss_i s)) as [x Hx]; [lia|].
  assert (Hcopy :
    body s = Val (Continue (mk_rss (rss_i s + 1) (rss_res s ++ [x]) (rss_world s))) ->
    exists s', body s = Val (Continue s') /\ rss_i s < rss_i s' <= len cmdRunes).
  { intros Hb. eexists. split; [exact Hb|]. simpl. lia. }
  destruct (Z.eq_dec x r_dollar) as [Hd|Hd];
    [|left; apply Hcopy, rss_body_copy; [assumption|congruence]].
  subst x.
  destruct (rune_at cmdRunes (rss_i s + 1)) as [n| |] eqn:Hn;
    [|left; apply Hcopy, rss_body_copy; [assumption|congruence]..].
  pose proof (rune_at_range _ _ _ Hn) as Hr.
  destruct (Z.eq_dec n r_lbrace) as [Hb|Hb].
  - subst n. rewrite (rss_body_curly s Hx Hn).
    destruct (fep_found cmdRunes r_lbrace r_rbrace _ Hn) as (e & Hf & He & _).
    destruct (Z.eq_dec e (len cmdRunes)) as [->|Hne].
    + right. rewrite (rss_curly_unmatched s Hf). eexists. split; [reflexivity|].
      do 2 eexists. reflexivity.
    + rewrite (rss_curly_found s e) by (assumption || lia).
      destruct (LookupEnv _ _) as [value|].
      * left. eexists. split; [reflexivity|]. simpl. lia.
      * right. eexists. split; [reflexivity|]. do 2 eexists. reflexivity.
  - destruct (Z.eq_dec n r_lparen) as [Hp|Hp].
    + subst n. rewrite (rss_body_round s Hx Hn).
      destruct (fep_found cmdRunes r_lparen r_rparen _ Hn) as (e & Hf & He & _).
      destruct (Z.eq_dec e (len cmdRunes)) as [->|Hne].
      * right. rewrite (rss_round_unmatched s Hf). eexists. split; [reflexivity|].
        do 2 eexists. reflexivity.
      * rewrite (rss_round_found s e) by (assumption || lia).
        destruct (ExecuteCommandInShell _ _ _ _) as [w' [[retCode output] err]].
        destruct (retCode =? -1).
        -- right. eexists. split; [reflexivity|]. do 2 eexists. reflexivity.
        -- left. eexists. split; [reflexivity|]. simpl. lia.
    + left. apply Hcopy, rss_body_copy; [assumption|].
      intros _ n' Hn'. rewrite Hn in Hn'. injection Hn' as <-. split; assumption.
Qed.

(** ** resolveShellSubstitution: the whole loop *)

(** With fuel for the runes that are left the loop ends: in a state past
    the last rune, or by a [return] of the empty string and an error. *)
Lemma rss_loop_total (fuel : nat) :
  forall s : @rss_state World,
    0 <= rss_i s -> len cmdRunes - rss_i s <= Z.of_nat fuel ->
    exists c, loop fuel cond body s = Val c
              /\ match c with
                 | Continue s' => cond s' = false
                 | Return v => rss_failure v
                 end.
Proof.
  induction fuel as [|k IH]; intros s Hi Hfuel.
  - exists (Continue s). assert (Hc : cond s = false) by (apply rss_cond_false; lia).
    split; [apply loop_exit|]; exact Hc.
  - destruct (cond s) eqn:Hc.
    + apply rss_cond_true in Hc.
      destruct (rss_body_progress s) as [(s' & Hb & Hs')|(v & Hb & Hv)]; [lia| |].
      * destruct (IH s') as (c & Hl & Hcase); try lia.
        exists c. split; [|exact Hcase].
        rewrite (loop_turn cond body k s s'); [exact Hl|apply rss_cond_true; lia|exact Hb].
      * exists (Return v). split; [|exact Hv].
        apply loop_return; [apply rss_cond_true; lia|exact Hb].
    + exists (Continue s). split; [apply loop_exit|]; exact Hc.
Qed.

(** The index only grows from turn to turn. *)
Lemma rss_reaches_index (s0 s : @rss_state World) :
  reaches s0 s -> 0 <= rss_i s0 -> rss_i s0 <= rss_i s.
Proof.
  induction 1 as [|s1 s2 _ IH Hc Hb]; intros H0; [lia|].
  specialize (IH H0). apply rss_cond_true in Hc.
  destruct (rss_body_progress s1) as [(s' & Hb' & Hs')|(v & Hb' & _)]; [lia| |];
    rewrite Hb in Hb'; [injection Hb' as <-; lia|discriminate].
Qed.

(** A loop started earlier ends the way it ends from a state it reaches. *)
Lemma rss_reaches_loop (s0 s : @rss_state World) :
  reaches s0 s ->
  forall (k : nat) (c : ctl rss_state rss_result),
    loop k cond body s = Val c -> exists k0, loop k0 cond body s0 = Val c.
Proof.
  induction 1 as [|s1 s2 _ IH Hc Hb]; intros k c Hl.
  - exists k. exact Hl.
  - apply (IH (Datatypes.S k)).
    rewrite (loop_turn cond body k s1 s2 Hc Hb). exact Hl.
Qed.

Lemma rss_reaches_trans (s0 s1 s2 : @rss_state World) :
  reaches s0 s1 -> reaches s1 s2 -> reaches s0 s2.
Proof.
  intros H01 H12. induction H12 as [|s s' _ IH Hc Hb]; [exact H01|].
  eapply rss_reaches_turn; eassumption.
Qed.

(** The call returns what the loop returns from a state it visits. *)
Lemma rss_visits_loop (w0 : World) (s : @rss_state World)
      (k : nat) (c : ctl rss_state rss_result) :
  visits w0 s -> loop k cond body s = Val c ->
  loop (List.length cmdRunes) cond body (mk_rss 0 [] w0) = Val c.
Proof.
  intros Hv Hl.
  destruct (rss_reaches_loop _ _ Hv k c Hl) as [k0 Hk0].
  destruct (rss_loop_total (List.length cmdRunes) (mk_rss 0 [] w0))
    as (c' & Hc' & _); simpl; [lia|unfold len; lia|].
  rewrite Hc'. f_equal. eapply loop_deterministic; eassumption.
Qed.

(** A [return] in a visited state is what the call returns. *)
Lemma rss_visits_return (w0 : World) (s : @rss_state World)
      (v : @rss_result World) :
  visits w0 s -> cond s = true -> body s = Val (Return v) ->
  resolve w0 = Val v.
Proof.
  intros Hv Hc Hb. unfold resolveShellSubstitution, rss_run.
  rewrite (rss_visits_loop w0 s 1 (Return v) Hv); [reflexivity|].
  apply loop_return; assumption.
Qed.

(** A visited state past the last rune holds what the call returns. *)
Lemma rss_visits_end (w0 : World) (s : @rss_state World) :
  visits w0 s -> cond s = false ->
  resolve w0 = Val (rss_world s, (rss_res s, None)).
Proof.
  intros Hv Hc. unfold resolveShellSubstitution, rss_run.
  rewrite (rss_visits_loop w0 s 0 (Continue s) Hv); [reflexivity|].
  apply loop_exit; assumption.
Qed.

Lemma rss_visits_turn (w0 : World) (s s' : @rss_state World) :
  visits w0 s -> cond s = true -> body s = Val (Continue s') -> visits w0 s'.
Proof. intros Hv Hc Hb. eapply rss_reaches_turn; eassumption. Qed.

Lemma rss_visits_index (w0 : World) (s : @rss_state World) :
  visits w0 s -> 0 <= rss_i s.
Proof. intros Hv. apply (rss_reaches_index _ _ Hv). simpl. lia. Qed.

(** The call always returns, and on an error the string is empty. *)
Lemma rss_total (w0 : World) :
  exists v : @rss_result World,
    resolve w0 = Val v /\ (snd (snd v) = None \/ rss_failure v).
Proof.
  unfold resolveShellSubstitution, rss_run.
  destruct (rss_loop_total (List.length cmdRunes) (mk_rss 0 [] w0))
    as (c & Hc & Hcase); simpl; [lia|unfold len; lia|].
  rewrite Hc. simpl. destruct c as [s'|v].
  - eexists. split; [reflexivity|]. left. reflexivity.
  - exists v. split; [reflexivity|]. right. exact Hcase.
Qed.

Lemma rss_reaches_first (s0 s1 s : @rss_state World) :
  cond s0 = true -> body s0 = Val (Continue s1) ->
  reaches s1 s -> reaches s0 s.
Proof.
  intros Hc Hb H1. apply (rss_reaches_trans s0 s1 s); [|exact H1].
  eapply rss_reaches_turn; [apply rss_reaches_here|exact Hc|exact Hb].
Qed.

(** The loop copies rune after rune up to the first dollar followed by an
    opening brace or parenthesis. *)
Lemma rss_copies_before (w0 : World) :
  forall k : nat,
    (k <= List.length cmdRunes)%nat ->
    no_substitution_before cmdRunes (Z.of_nat k) ->
    visits w0 (mk_rss (Z.of_nat k) (firstn k cmdRunes) w0).
Proof.
  induction k as [|k IH]; intros Hk Hplain.
  - apply rss_reaches_here.
  - assert (IHk : visits w0 (mk_rss (Z.of_nat k) (firstn k cmdRunes) w0)).
    { apply IH; [lia|]. intros i n Hi. apply Hplain. lia. }
    destruct (rune_at_in_range cmdRunes (Z.of_nat k)) as [x Hx];
      [unfold len; lia|].
    eapply rss_visits_turn; [exact IHk|apply rss_cond_true; simpl; unfold len; lia|].
    rewrite (rss_body_copy (mk_rss (Z.of_nat k) (firstn k cmdRunes) w0) x Hx).
    + simpl. f_equal. f_equal. f_equal; [lia|].
      apply rune_at_Val in Hx. destruct Hx as [_ Hn]. rewrite Nat2Z.id in Hn.
      symmetry. apply firstn_snoc. exact Hn.
    + intros -> n Hn. simpl in Hn. apply (Hplain (Z.of_nat k) n); [lia|exact Hx|exact Hn].
Qed.

(** Without substitution syntax the loop copies the whole command. *)
Lemma rss_copies_prefix (w0 : World) :
  no_substitution cmdRunes ->
  forall k : nat,
    (k <= List.length cmdRunes)%nat ->
    visits w0 (mk_rss (Z.of_nat k) (firstn k cmdRunes) w0).
Proof.
  intros Hplain k Hk. apply rss_copies_before; [exact Hk|].
  intros i n _. apply Hplain.
Qed.

End ResolverFacts.

(** ** strings.Fields *)

Lemma fields_scan_fields (s : gostring) :
  forall field : option gostring,
    match field with Some f => is_field f | None => True end ->
    Forall is_field (fields_scan field s).
Proof.
  induction s as [|x s IH]; intros field Hf; simpl.
  - destruct field; [constructor; [exact Hf|constructor]|constructor].
  - destruct (isSpace x) eqn:Hx.
    + destruct field as [f|]; [constructor; [exact Hf|]|]; apply IH; exact I.
    + apply IH. destruct field as [f|].
      * destruct Hf as [Hne Hall]. split.
        -- destruct f; discriminate.
        -- apply Forall_app. split; [exact Hall|]. constructor; [exact Hx|constructor].
      * split; [discriminate|]. constructor; [exact Hx|constructor].
Qed.

Lemma Fields_fields (s : gostring) : Forall is_field (Fields s).
Proof. apply fields_scan_fields. exact I. Qed.

(** ** The claims on substitution *)

Section SubstitutionClaims.

Context {World : Type}.
Variable LookupEnv : World -> gostring -> option gostring.
Variable ExecuteCommandInShell :
  World -> Z -> gostring -> gostring ->
  World * (Z * gostring * option exec_error).
Variable shellSubTimeout : Z.
Variable command : gostring.
Variable cwdLocation : gostring.

Local Notation body :=
  (rss_body LookupEnv ExecuteCommandInShell shellSubTimeout command cwdLocation).
Local Notation cond := (@rss_cond World command).
Local Notation visits :=
  (rss_visits LookupEnv ExecuteCommandInShell shellSubTimeout command cwdLocation).
Local Notation resolve :=
  (resolveShellSubstitution LookupEnv ExecuteCommandInShell shellSubTimeout
     command cwdLocation).
Local Notation tokenize :=
  (tokenizePromptCommand LookupEnv ExecuteCommandInShell shellSubTimeout
     command cwdLocation).

(** Lines 15-19: what the pipeline makes of the resolver's result. *)
Lemma tpc_of_resolve (w0 w : World) (s : gostring) (oe : option error) :
  resolve w0 = Val (w, (s, oe)) ->
  tokenize w0
  = Val (w, match oe with
            | Some e => (None, Some e)
            | None => (Some (Fields s), None)
            end).
Proof.
  intros Hr. unfold tokenizePromptCommand. rewrite Hr. simpl.
  destruct oe; reflexivity.
Qed.

(** C4: the call always returns; the error of the first turn that fails is
    what it returns, with the empty string, and no later turn is run; and
    beside an error the pipeline returns the nil token list and that same
    error, with no tokenization. *)
Theorem failure_is_total (w0 : World) :
  (exists (w : World) (res : gostring) (oe : option error),
      resolve w0 = Val (w, (res, oe))
      /\ match oe with
         | Some e => res = [] /\ tokenize w0 = Val (w, (None, Some e))
         | None => tokenize w0 = Val (w, (Some (Fields res), None))
         end)
  /\ (forall (s : @rss_state World) (v : @rss_result World),
        visits w0 s -> cond s = true -> body s = Val (Return v) ->
        resolve w0 = Val v /\ rss_failure v).
Proof.
  split.
  - destruct (rss_total LookupEnv ExecuteCommandInShell shellSubTimeout
                command cwdLocation w0) as ([w [res oe]] & Hr & Hcase).
    exists w, res, oe. split; [exact Hr|].
    pose proof (tpc_of_resolve w0 w res oe Hr) as Ht.
    destruct oe as [e|].
    + split; [|exact Ht].
      destruct Hcase as [Hnone|(w1 & e1 & Heq)]; [discriminate|].
      congruence.
    + exact Ht.
  - intros s v Hv Hc Hb. split; [eapply rss_visits_return; eassumption|].
    pose proof (rss_visits_index _ _ _ _ _ _ _ Hv) as Hi.
    apply rss_cond_true in Hc.
    destruct (rss_body_progress LookupEnv ExecuteCommandInShell shellSubTimeout
                command cwdLocation s) as [(s' & Hb' & _)|(v' & Hb' & Hfail)];
      [lia| |]; rewrite Hb in Hb'; [discriminate|].
    injection Hb' as <-. exact Hfail.
Qed.

(** C5: when the loop comes to a dollar and an opening parenthesis for
    which [findEndingParenthesis] returns the length of the command, the
    call returns the empty string and [bracketParMatchError], and the
    pipeline returns the nil token list and that error. *)
Theorem round_bracket_mismatch (w0 : World) (s : @rss_state World) :
  visits w0 s ->
  rune_at command (rss_i s) = Val r_dollar ->
  rune_at command (rss_i s + 1) = Val r_lparen ->
  findEndingParenthesis command r_lparen r_rparen (rss_i s + 1)
  = Val (len command) ->
  resolve w0 = Val (rss_world s, ([], Some bracketParMatchError))
  /\ tokenize w0 = Val (rss_world s, (None, Some bracketParMatchError)).
Proof.
  intros Hv Hd Hb Hf.
  pose proof (rune_at_range _ _ _ Hd) as Hr.
  assert (Hres : resolve w0 = Val (rss_world s, ([], Some bracketParMatchError))).
  { eapply rss_visits_return; [exact Hv|apply rss_cond_true; lia|].
    rewrite (rss_body_round LookupEnv ExecuteCommandInShell shellSubTimeout
               command cwdLocation s Hd Hb).
    apply rss_round_unmatched. exact Hf. }
  split; [exact Hres|]. exact (tpc_of_resolve _ _ _ _ Hres).
Qed.

(** C6, as the code has it: when the shell reports the timeout of a
    [$(cmd)] span (return code -1 with [context.DeadlineExceeded]), the
    call returns the empty string, whatever output was collected, and the
    error of line 68, the one it builds for a command that could not be
    started, wrapping the deadline error and naming the command. *)
Theorem timeout_is_could_not_execute
        (w0 : World) (s : @rss_state World) (e : Z)
        (w' : World) (output : gostring) :
  visits w0 s ->
  rune_at command (rss_i s) = Val r_dollar ->
  rune_at command (rss_i s + 1) = Val r_lparen ->
  findEndingParenthesis command r_lparen r_rparen (rss_i s + 1) = Val e ->
  e < len command ->
  ExecuteCommandInShell (rss_world s) shellSubTimeout cwdLocation
    (seg command (rss_i s + 2) e) = (w', (-1, output, Some DeadlineExceeded)) ->
  exists err : error,
    resolve w0 = Val (w', ([], Some err))
    /\ err = couldNotExecuteError (seg command (rss_i s + 2) e)
               (Some DeadlineExceeded)
    /\ wrapsDeadlineExceeded err = true
    /\ isShellLaunchError err = true.
Proof.
  intros Hv Hd Hb Hf He Hexec.
  pose proof (rss_visits_index _ _ _ _ _ _ _ Hv) as Hi.
  pose proof (rune_at_range _ _ _ Hd) as Hr.
  destruct (fep_found command r_lparen r_rparen _ Hb) as (e' & Hf' & He' & _).
  rewrite Hf in Hf'. injection Hf' as <-.
  eexists. split; [|split; [reflexivity|split; reflexivity]].
  eapply rss_visits_return; [exact Hv|apply rss_cond_true; lia|].
  rewrite (rss_body_round LookupEnv ExecuteCommandInShell shellSubTimeout
             command cwdLocation s Hd Hb).
  rewrite (rss_round_found ExecuteCommandInShell shellSubTimeout command
             cwdLocation s e) by (assumption || lia).
  rewrite Hexec. reflexivity.
Qed.

(** C7: when the loop comes to a dollar that is the last rune or is
    followed by a rune other than an opening brace or parenthesis, the
    dollar is copied to the output and the world is left as it is, and so
    is the rune after it unless it is a dollar itself; and a command in
    which no dollar is followed by an opening brace or parenthesis is
    returned unchanged, so that the pipeline returns its fields. *)
Theorem plain_dollar_is_copied (w0 : World) :
  (forall s : @rss_state World,
      visits w0 s ->
      rune_at command (rss_i s) = Val r_dollar ->
      (forall n, rune_at command (rss_i s + 1) = Val n ->
                 n <> r_lbrace /\ n <> r_lparen) ->
      visits w0 (mk_rss (rss_i s + 1) (rss_res s ++ [r_dollar]) (rss_world s))
      /\ (forall n, rune_at command (rss_i s + 1) = Val n -> n <> r_dollar ->
                    visits w0 (mk_rss (rss_i s + 2)
                                 (rss_res s ++ [r_dollar; n]) (rss_world s))))
  /\ (no_substitution command ->
      resolve w0 = Val (w0, (command, None))
      /\ tokenize w0 = Val (w0, (Some (Fields command), None))).
Proof.
  split.
  - intros s Hv Hd Hnext.
    pose proof (rune_at_range _ _ _ Hd) as Hr.
    assert (Hv1 : visits w0 (mk_rss (rss_i s + 1) (rss_res s ++ [r_dollar])
                               (rss_world s))).
    { eapply rss_visits_turn; [exact Hv|apply rss_cond_true; lia|].
      apply rss_body_copy; [exact Hd|]. intros _. exact Hnext. }
    split; [exact Hv1|].
    intros n Hn Hnd. pose proof (rune_at_range _ _ _ Hn) as Hrn.
    eapply rss_visits_turn; [exact Hv1|apply rss_cond_true; simpl; lia|].
    rewrite (rss_body_copy LookupEnv ExecuteCommandInShell shellSubTimeout command
               cwdLocation
               (mk_rss (rss_i s + 1) (rss_res s ++ [r_dollar]) (rss_world s)) n Hn).
    + simpl. rewrite <- app_assoc. simpl.
      replace (rss_i s + 1 + 1) with (rss_i s + 2) by lia. reflexivity.
    + intros ->. congruence.
  - intros Hplain.
    assert (Hres : resolve w0 = Val (w0, (command, None))).
    { pose proof (rss_copies_prefix LookupEnv ExecuteCommandInShell shellSubTimeout
                    command cwdLocation w0 Hplain (List.length command)
                    (Nat.le_refl _)) as Hv.
      rewrite firstn_all in Hv.
      apply (rss_visits_end _ _ _ _ _ _ _ Hv).
      apply rss_cond_false. simpl. unfold len. lia. }
    split; [exact Hres|]. exact (tpc_of_resolve _ _ _ _ Hres).
Qed.

(** C10: when the pipeline succeeds, its tokens are those of
    [strings.Fields]: each is non-empty and holds no white space, so the
    empty string is never one of them. *)
Theorem tokens_are_fields (w0 w : World) (otoks : option (list gostring)) :
  tokenize w0 = Val (w, (otoks, None)) ->
  exists (res : gostring) (toks : list gostring),
    resolve w0 = Val (w, (res, None))
    /\ otoks = Some toks
    /\ toks = Fields res
    /\ Forall is_field toks
    /\ ~ In [] toks.
Proof.
  intros Ht.
  destruct (rss_total LookupEnv ExecuteCommandInShell shellSubTimeout
              command cwdLocation w0) as ([w1 [res oe]] & Hr & _).
  rewrite (tpc_of_resolve w0 w1 res oe Hr) in Ht.
  destruct oe as [e|]; [discriminate|].
  injection Ht as <- <-.
  exists res, (Fields res). split; [exact Hr|].
  split; [reflexivity|]. split; [reflexivity|].
  pose proof (Fields_fields res) as Hall. split; [exact Hall|].
  intros Hin. rewrite Forall_forall in Hall.
  destruct (Hall [] Hin) as [Hne _]. apply Hne. reflexivity.
Qed.

End SubstitutionClaims.

Lemma rune_at_cons (x : rune) (l : list rune) (i : Z) :
  0 <= i -> rune_at (x :: l) (i + 1) = rune_at l i.
Proof.
  intros Hi. unfold rune_at.
  assert (Hlen : len (x :: l) = len l + 1)
    by (unfold len; simpl List.length; lia).
  rewrite Hlen.
  replace (Z.to_nat (i + 1)) with (Datatypes.S (Z.to_nat i)) by lia.
  change (nth_error (x :: l) (Datatypes.S (Z.to_nat i)))
    with (nth_error l (Z.to_nat i)).
  destruct (Z.ltb_spec i (len l)); destruct (Z.ltb_spec (i + 1) (len l + 1));
    try lia; destruct (Z.leb_spec 0 i); destruct (Z.leb_spec 0 (i + 1));
    try lia; reflexivity.
Qed.

Lemma no_substitutionb_sound (l : list rune) :
  no_substitutionb l = true -> no_substitution l.
Proof.
  induction l as [|x l IH]; intros Hb i n Hd Hn.
  - apply rune_at_range in Hd. unfold len in Hd. simpl in Hd. lia.
  - pose proof (rune_at_range _ _ _ Hd) as Hr.
    destruct l as [|y l].
    + apply rune_at_range in Hn. unfold len in Hr, Hn. simpl in Hr, Hn. lia.
    + simpl in Hb. apply andb_true_iff in Hb. destruct Hb as [Hhere Hrest].
      destruct (Z.eq_dec i 0) as [->|Hi].
      * apply rune_at_Val in Hd, Hn.
        destruct Hd as [_ Hd]. destruct Hn as [_ Hn]. simpl in Hd, Hn.
        injection Hd as ->. injection Hn as ->.
        rewrite Z.eqb_refl in Hhere. simpl in Hhere.
        apply negb_true_iff, orb_false_iff in Hhere.
        destruct Hhere as [H1 H2]. apply Z.eqb_neq in H1, H2. split; assumption.
      * replace i with (i - 1 + 1) in Hd by lia.
        replace (i + 1) with (i - 1 + 1 + 1) in Hn by lia.
        rewrite rune_at_cons in Hd, Hn by lia.
        exact (IH Hrest (i - 1) n Hd Hn).
Qed.

(** ** The claim on the quote-aware tokenizer *)













(** ** The claims on the commands of the tests *)

(** C4 on the ill-formed command of the tests. *)
Lemma failure_is_total_witness :
  exists (w : Demo.World) (res : gostring) (oe : option error),
    Demo.resolve (str "abc $(abc") = Val (w, (res, oe))
    /\ match oe with
       | Some e => res = [] /\ Demo.tokenize (str "abc $(abc") = Val (w, (None, Some e))
       | None => Demo.tokenize (str "abc $(abc") = Val (w, (Some (Fields res), None))
       end.
Proof.
  exact (proj1 (failure_is_total Demo.LookupEnv Demo.ExecuteCommandInShell 1000
                  (str "abc $(abc") (str "/tmp") [])).
Defined.

(** C5 on [abcd $(xyz]. *)
Lemma round_bracket_mismatch_witness :
  Demo.resolve (str "abcd $(xyz") = Val ([], ([], Some bracketParMatchError))
  /\ Demo.tokenize (str "abcd $(xyz") = Val ([], (None, Some bracketParMatchError)).
Proof.
  refine (round_bracket_mismatch Demo.LookupEnv Demo.ExecuteCommandInShell 1000
            (str "abcd $(xyz") (str "/tmp") [] (mk_rss 5 (str "abcd ") [])
            _ _ _ _);
    [|reflexivity..].
  unfold rss_visits.
  do 5 (eapply rss_reaches_first; [reflexivity|reflexivity|]).
  apply rss_reaches_here.
Defined.

(** C6 as the specification states it fails on [$(sleep 2)]: the error the
    call returns is the one of line 68, of the kind returned for a command
    that could not be started. *)
Lemma timeout_error_not_distinct :
  Demo.resolve (str "$(sleep 2)")
  = Val ([str "sleep 2"],
         ([], Some (couldNotExecuteError (str "sleep 2") (Some DeadlineExceeded))))
  /\ ~ (exists (w : Demo.World) (e : error),
           Demo.resolve (str "$(sleep 2)") = Val (w, ([], Some e))
           /\ isShellLaunchError e = false).
Proof.
  split; [reflexivity|].
  intros (w & e & Hr & Hk). vm_compute in Hr.
  injection Hr as _ <-. discriminate Hk.
Qed.

(** C6 as the code has it, on [$(sleep 2)]. *)
Lemma timeout_is_could_not_execute_witness :
  exists err : error,
    Demo.resolve (str "$(sleep 2)") = Val ([str "sleep 2"], ([], Some err))
    /\ err = couldNotExecuteError (str "sleep 2") (Some DeadlineExceeded)
    /\ wrapsDeadlineExceeded err = true
    /\ isShellLaunchError err = true.
Proof.
  refine (timeout_is_could_not_execute Demo.LookupEnv Demo.ExecuteCommandInShell
            1000 (str "$(sleep 2)") (str "/tmp") [] (mk_rss 0 [] []) 9
            [str "sleep 2"] (str "zz") _ _ _ _ _ eq_refl);
    [apply rss_reaches_here|reflexivity..].
Defined.

(** C7 on a dollar at the end of the command and on [abcd (xyz]. *)
Lemma plain_dollar_is_copied_witness :
  rss_visits Demo.LookupEnv Demo.ExecuteCommandInShell 1000
    (str "a$") (str "/tmp") [] (mk_rss 2 (str "a$") [])
  /\ Demo.tokenize (str "abcd (xyz")
     = Val ([], (Some [str "abcd"; str "(xyz"], None)).
Proof.
  split.
  - refine (proj1 (proj1 (plain_dollar_is_copied Demo.LookupEnv
                            Demo.ExecuteCommandInShell 1000 (str "a$")
                            (str "/tmp") [])
                     (mk_rss 1 (str "a") []) _ eq_refl _)).
    + unfold rss_visits.
      eapply rss_reaches_first; [reflexivity|reflexivity|].
      apply rss_reaches_here.
    + intros n Hn. discriminate Hn.
  - refine (proj2 (proj2 (plain_dollar_is_copied Demo.LookupEnv
                            Demo.ExecuteCommandInShell 1000 (str "abcd (xyz")
                            (str "/tmp") [])
                     (no_substitutionb_sound (str "abcd (xyz") eq_refl))).
Defined.



(** C9 on a row of [Test_findEndingParenthesis]. *)
Lemma findEndingParenthesis_range_witness :
  exists v : Z,
    findEndingParenthesis (str "abc(def)") r_lparen r_rparen 3 = Val v
    /\ (v = -1
        \/ (3 < v <= len (str "abc(def)")
            /\ (v < len (str "abc(def)") ->
                rune_at (str "abc(def)") v = Val r_rparen))).
Proof.
  exact (findEndingParenthesis_range (str "abc(def)") r_lparen r_rparen 3).
Defined.

(** C10 on a command with an empty pair of quotes: the pipeline keeps the
    two quotes as a token, where the quote-aware tokenizer gives the empty
    token. *)
Lemma tokens_are_fields_witness :
  (exists (res : gostring) (toks : list gostring),
      Demo.resolve (str "command " ++ dq []) = Val ([], (res, None))
      /\ Some [str "command"; dq []] = Some toks
      /\ toks = Fields res
      /\ Forall is_field toks
      /\ ~ In [] toks)
  /\ tokenizeWithQuotes (str "command " ++ dq []) = (Some [str "command"; []], None).
Proof.
  split; [|reflexivity].
  exact (tokens_are_fields Demo.LookupEnv Demo.ExecuteCommandInShell 1000
           (str "command " ++ dq []) (str "/tmp") [] []
           (Some [str "command"; dq []]) eq_refl).
Defined.

(** * Further properties of the code *)

(** ** A rule for loops *)

Section LoopRule.

Context {S R : Type}.
Variable cond : S -> bool.
Variable body : S -> outcome (ctl S R).
Variable P : S -> Prop.

Hypothesis P_kept :
  forall s s', P s -> cond s = true -> body s = Val (Continue s') -> P s'.

(** A loop started in a state of [P] ends in a state of [P] in which the
    condition fails, or by a [return] of a turn taken in a state of [P]. *)
Lemma loop_rule (fuel : nat) :
  forall (s : S) (c : ctl S R),
    P s -> loop fuel cond body s = Val c ->
    match c with
    | Continue s' => P s' /\ cond s' = false
    | Return v =>
        exists s1, P s1 /\ cond s1 = true /\ body s1 = Val (Return v)
    end.
Proof.
  induction fuel as [|k IH]; intros s c HP Hl; simpl in Hl;
    destruct (cond s) eqn:Hc; try discriminate.
  - injection Hl as <-. split; assumption.
  - destruct (body s) as [[s'|v]| |] eqn:Hb; simpl in Hl; try discriminate.
    + apply (IH s' c); [eapply P_kept; eassumption|exact Hl].
    + injection Hl as <-. exists s. repeat split; assumption.
  - injection Hl as <-. split; assumption.
Qed.

End LoopRule.

(** ** resolveShellSubstitution: every turn is one of seven *)

Section ResolverTurnFacts.

Context {World : Type}.
Variable LookupEnv : World -> gostring -> option gostring.
Variable ExecuteCommandInShell :
  World -> Z -> gostring -> gostring ->
  World * (Z * gostring * option exec_error).
Variable subCmdTimeout : Z.
Variable cmdRunes : list rune.
Variable cwdLocation : gostring.

Local Notation body :=
  (rss_body LookupEnv ExecuteCommandInShell subCmdTimeout cmdRunes cwdLocation).
Local Notation cond := (@rss_cond World cmdRunes).
Local Notation turn :=
  (rss_turn LookupEnv ExecuteCommandInShell subCmdTimeout cmdRunes cwdLocation).
Local Notation visits :=
  (rss_visits LookupEnv ExecuteCommandInShell subCmdTimeout cmdRunes cwdLocation).
Local Notation resolve :=
  (resolveShellSubstitution LookupEnv ExecuteCommandInShell subCmdTimeout
     cmdRunes cwdLocation).

(** The body does what the case of the turn says. *)
Lemma rss_turn_body (s : @rss_state World)
      (c : ctl (@rss_state World) (@rss_result World)) :
  turn s c -> body s = Val c.
Proof.
  intros Ht.
  destruct Ht as [x Hx Hnot
                 |Hd Hb Hf
                 |e Hd Hb Hf He Hl
                 |e value Hd Hb Hf He Hl
                 |Hd Hb Hf
                 |e w' output err Hd Hb Hf He Hx
                 |e w' retCode output err Hd Hb Hf He Hx Hrc].
  - apply rss_body_copy; assumption.
  - rewrite (rss_body_curly _ _ _ _ _ s Hd Hb). apply rss_curly_unmatched. exact Hf.
  - pose proof (rune_at_range _ _ _ Hd).
    rewrite (rss_body_curly _ _ _ _ _ s Hd Hb).
    rewrite (rss_curly_found LookupEnv cmdRunes s e) by (assumption || lia).
    rewrite Hl. reflexivity.
  - pose proof (rune_at_range _ _ _ Hd).
    rewrite (rss_body_curly _ _ _ _ _ s Hd Hb).
    rewrite (rss_curly_found LookupEnv cmdRunes s e) by (assumption || lia).
    rewrite Hl. reflexivity.
  - rewrite (rss_body_round _ _ _ _ _ s Hd Hb). apply rss_round_unmatched. exact Hf.
  - pose proof (rune_at_range _ _ _ Hd).
    rewrite (rss_body_round _ _ _ _ _ s Hd Hb).
    rewrite (rss_round_found ExecuteCommandInShell subCmdTimeout cmdRunes
               cwdLocation s e) by (assumption || lia).
    rewrite Hx. reflexivity.
  - pose proof (rune_at_range _ _ _ Hd).
    rewrite (rss_body_round _ _ _ _ _ s Hd Hb).
    rewrite (rss_round_found ExecuteCommandInShell subCmdTimeout cmdRunes
               cwdLocation s e) by (assumption || lia).
    rewrite Hx. apply Z.eqb_neq in Hrc. rewrite Hrc. reflexivity.
Qed.

(** Inside the command the body takes one of the seven turns. *)
Lemma rss_body_turn (s : @rss_state World) :
  0 <= rss_i s < len cmdRunes ->
  exists c, body s = Val c /\ turn s c.
Proof.
  intros Hi.
  assert (Hgo : forall c, turn s c -> exists c', body s = Val c' /\ turn s c').
  { intros c Ht. exists c. split; [apply rss_turn_body|]; exact Ht. }
  destruct (rune_at_in_range cmdRunes (rss_i s)) as [x Hx]; [lia|].
  destruct (Z.eq_dec x r_dollar) as [Hd|Hd];
    [|eapply Hgo, turn_copy; [exact Hx|congruence]].
  subst x.
  destruct (rune_at cmdRunes (rss_i s + 1)) as [n| |] eqn:Hn;
    [|eapply Hgo, turn_copy; [exact Hx|congruence]..].
  destruct (Z.eq_dec n r_lbrace) as [Hb|Hb].
  - subst n.
    destruct (fep_found cmdRunes r_lbrace r_rbrace _ Hn) as (e & Hf & He & _).
    destruct (Z.eq_dec e (len cmdRunes)) as [->|Hne].
    + eapply Hgo, turn_curly_unmatched; eassumption.
    + destruct (LookupEnv (rss_world s) (seg cmdRunes (rss_i s + 2) e))
        as [value|] eqn:Hl.
      * eapply Hgo, (turn_env_found _ _ _ _ _ s e value); try eassumption. lia.
      * eapply Hgo, (turn_env_missing _ _ _ _ _ s e); try eassumption. lia.
  - destruct (Z.eq_dec n r_lparen) as [Hp|Hp].
    + subst n.
      destruct (fep_found cmdRunes r_lparen r_rparen _ Hn) as (e & Hf & He & _).
      destruct (Z.eq_dec e (len cmdRunes)) as [->|Hne].
      * eapply Hgo, turn_round_unmatched; eassumption.
      * destruct (ExecuteCommandInShell (rss_world s) subCmdTimeout cwdLocation
                    (seg cmdRunes (rss_i s + 2) e))
          as [w' [[retCode output] err]] eqn:Hx'.
        destruct (Z.eq_dec retCode (-1)) as [->|Hrc].
        -- eapply Hgo, (turn_exec_failed _ _ _ _ _ s e); try eassumption. lia.
        -- eapply Hgo, (turn_exec_ok _ _ _ _ _ s e); try eassumption. lia.
    + eapply Hgo, turn_copy; [exact Hx|].
      intros _ n' Hn'. rewrite Hn in Hn'. injection Hn' as <-. split; assumption.
Qed.

(** The turn the body takes is a turn of the seven. *)
Lemma rss_body_is_turn (s : @rss_state World)
      (c : ctl (@rss_state World) (@rss_result World)) :
  0 <= rss_i s < len cmdRunes -> body s = Val c -> turn s c.
Proof.
  intros Hi Hb. destruct (rss_body_turn s Hi) as (c' & Hb' & Ht).
  rewrite Hb in Hb'. injection Hb' as <-. exact Ht.
Qed.

(** What holds at the start and is kept by the turns holds for what the
    call returns. *)
Lemma rss_rule (P : @rss_state World -> Prop) (w0 : World) :
  P (mk_rss 0 [] w0) ->
  (forall s c, P s -> 0 <= rss_i s < len cmdRunes -> turn s c ->
               match c with Continue s' => P s' | Return _ => True end) ->
  exists v : @rss_result World,
    resolve w0 = Val v
    /\ ((exists s, P s /\ len cmdRunes <= rss_i s
                   /\ v = (rss_world s, (rss_res s, None)))
        \/ (exists s, P s /\ 0 <= rss_i s < len cmdRunes
                      /\ turn s (Return v))).
Proof.
  intros H0 Hkept.
  destruct (rss_total LookupEnv ExecuteCommandInShell subCmdTimeout cmdRunes
              cwdLocation w0) as (v & Hv & _).
  exists v. split; [exact Hv|].
  unfold resolveShellSubstitution, rss_run in Hv.
  destruct (loop (List.length cmdRunes) cond body (mk_rss 0 [] w0))
    as [c| |] eqn:Hl; try discriminate.
  pose proof (loop_rule cond body (fun s => P s /\ 0 <= rss_i s)) as Hrule.
  specialize (Hrule ltac:(
    intros s s' [HP Hi] Hc Hb; apply rss_cond_true in Hc;
    pose proof (rss_body_is_turn s _ (conj Hi Hc) Hb) as Ht;
    split; [exact (Hkept s _ HP (conj Hi Hc) Ht)|];
    destruct (rss_body_progress LookupEnv ExecuteCommandInShell subCmdTimeout
                cmdRunes cwdLocation s (conj Hi Hc))
      as [(s1 & Hb1 & Hs1)|(v1 & Hb1 & _)];
    rewrite Hb in Hb1; [injection Hb1 as <-; lia|discriminate])).
  specialize (Hrule _ _ _ (conj H0 (Z.le_refl 0)) Hl).
  destruct c as [s'|v']; simpl in Hv; injection Hv as <-.
  - left. destruct Hrule as [[HP Hi] Hc]. apply rss_cond_false in Hc.
    exists s'. split; [exact HP|]. split; [exact Hc|reflexivity].
  - right. destruct Hrule as (s1 & [HP Hi] & Hc & Hb).
    apply rss_cond_true in Hc. exists s1. split; [exact HP|].
    split; [lia|]. apply rss_body_is_turn; [lia|exact Hb].
Qed.

Local Notation tokenize :=
  (tokenizePromptCommand LookupEnv ExecuteCommandInShell subCmdTimeout
     cmdRunes cwdLocation).

(** An error of [resolveShellSubstitution] is never the "unexpected
    error in tokenization" of lines 35 and 57.  It is the mismatch of a
    curly or of a round bracket, or [envVarNotFoundError] with a name that
    is a slice of the command and is not set in the world returned, or the
    error of line 68 with a command that is a slice of the command. *)
Lemma rss_error_kinds (w0 w : World) (res : gostring) (e : error) :
  resolve w0 = Val (w, (res, Some e)) ->
  e <> unexpectedTokenizationError
  /\ (e = curlyBracketParMatchError
      \/ e = bracketParMatchError
      \/ (exists lo hi, e = envVarNotFoundError (seg cmdRunes lo hi)
                        /\ LookupEnv w (seg cmdRunes lo hi) = None)
      \/ (exists lo hi cause,
             e = couldNotExecuteError (seg cmdRunes lo hi) cause)).
Proof.
  intros Hr.
  destruct (rss_rule (fun _ => True) w0 I) as (v & Hv & Hcase);
    [intros s c _ _ _; destruct c; exact I|].
  rewrite Hr in Hv. injection Hv as <-.
  destruct Hcase as [(s & _ & _ & Heq)|(s & _ & _ & Ht)]; [discriminate|].
  inversion Ht; subst.
  - split; [discriminate|]. left. reflexivity.
  - split; [discriminate|]. right. right. left. eauto.
  - split; [discriminate|]. right. left. reflexivity.
  - split; [discriminate|]. right. right. right. eauto.
Qed.

(** When the loop comes to a dollar and an opening brace for which
    [findEndingParenthesis] returns the length of the command, the call
    returns the empty string and [curlyBracketParMatchError], and the
    pipeline the nil token list and that error. *)
Lemma rss_curly_mismatch (w0 : World) (s : @rss_state World) :
  visits w0 s ->
  rune_at cmdRunes (rss_i s) = Val r_dollar ->
  rune_at cmdRunes (rss_i s + 1) = Val r_lbrace ->
  findEndingParenthesis cmdRunes r_lbrace r_rbrace (rss_i s + 1)
  = Val (len cmdRunes) ->
  resolve w0 = Val (rss_world s, ([], Some curlyBracketParMatchError))
  /\ tokenize w0 = Val (rss_world s, (None, Some curlyBracketParMatchError)).
Proof.
  intros Hv Hd Hb Hf.
  pose proof (rune_at_range _ _ _ Hd) as Hr.
  assert (Hres : resolve w0
                 = Val (rss_world s, ([], Some curlyBracketParMatchError))).
  { eapply rss_visits_return; [exact Hv|apply rss_cond_true; lia|].
    apply rss_turn_body. apply turn_curly_unmatched; assumption. }
  split; [exact Hres|]. exact (tpc_of_resolve _ _ _ _ _ _ _ _ _ Hres).
Qed.

(** A command in which no dollar is followed by an opening parenthesis
    never reaches the shell: whatever the environment holds, the call
    returns in the world it was started in. *)
Lemma rss_no_round_no_shell (w0 : World) :
  (forall i, rune_at cmdRunes i = Val r_dollar ->
             rune_at cmdRunes (i + 1) <> Val r_lparen) ->
  exists (res : gostring) (oe : option error),
    resolve w0 = Val (w0, (res, oe)).
Proof.
  intros Hno.
  destruct (rss_rule (fun s => rss_world s = w0) w0 eq_refl)
    as (v & Hv & Hcase).
  { intros s c Hw _ Ht.
    destruct Ht; simpl; try exact I; try exact Hw.
    exfalso. eapply Hno; eassumption. }
  destruct Hcase as [(s & Hw & _ & ->)|(s & Hw & _ & Ht)].
  - rewrite Hw in Hv. eauto.
  - inversion Ht as [ | | | | |e w' output err Hd Hb|]; subst v;
      try (rewrite Hw in Hv; eauto).
    exfalso. eapply Hno; eassumption.
Qed.

End ResolverTurnFacts.

(** ** findEndingParenthesis and concatenation *)

Lemma len_app {A : Type} (a b : list A) : len (a ++ b) = len a + len b.
Proof. unfold len. rewrite length_app. lia. Qed.

Lemma len_cons {A : Type} (x : A) (l : list A) : len (x :: l) = len l + 1.
Proof. unfold len. simpl List.length. lia. Qed.

Lemma rune_at_app_right (pre r : list rune) (j : Z) :
  0 <= j -> rune_at (pre ++ r) (len pre + j) = rune_at r j.
Proof.
  intros Hj. induction pre as [|x pre IH].
  - simpl. unfold len. simpl. f_equal.
  - rewrite len_cons. simpl app.
    replace (len pre + 1 + j) with (len pre + j + 1) by lia.
    rewrite rune_at_cons by (pose proof (len_nonneg pre); lia).
    exact IH.
Qed.

Lemma rune_at_app_left (r post : list rune) (j : Z) :
  j < len r -> rune_at (r ++ post) j = rune_at r j.
Proof.
  intros Hj. unfold rune_at. rewrite len_app.
  pose proof (len_nonneg post) as Hp.
  destruct (Z.leb_spec 0 j) as [H0|H0]; simpl; [|reflexivity].
  replace (j <? len r + len post) with true by (symmetry; apply Z.ltb_lt; lia).
  replace (j <? len r) with true by (symmetry; apply Z.ltb_lt; lia).
  rewrite nth_error_app1 by (unfold len in Hj; lia). reflexivity.
Qed.

Lemma seg_app_right (pre r : list rune) (a b : Z) :
  0 <= a -> seg (pre ++ r) (len pre + a) (len pre + b) = seg r a b.
Proof.
  intros Ha. unfold seg.
  replace (len pre + b - (len pre + a)) with (b - a) by lia.
  f_equal. rewrite skipn_app.
  replace (Z.to_nat (len pre + a)) with (List.length pre + Z.to_nat a)%nat
    by (unfold len; lia).
  rewrite skipn_all2 by lia. simpl. f_equal. lia.
Qed.

Lemma seg_app_left (r post : list rune) (a b : Z) :
  0 <= a -> b <= len r -> seg (r ++ post) a b = seg r a b.
Proof.
  intros Ha Hb. unfold seg. rewrite skipn_app, firstn_app.
  rewrite length_skipn.
  replace (Z.to_nat (b - a) - (List.length r - Z.to_nat a))%nat with 0%nat
    by (unfold len in Hb; lia).
  simpl. apply app_nil_r.
Qed.

Lemma depth_app_right (pre r : list rune) (open close : rune) (k j : Z) :
  0 <= k ->
  depth (pre ++ r) open close (len pre + k) (len pre + j)
  = depth r open close k j.
Proof.
  intros Hk. unfold depth.
  replace (len pre + k + 1) with (len pre + (k + 1)) by lia.
  replace (len pre + j + 1) with (len pre + (j + 1)) by lia.
  rewrite seg_app_right by lia. reflexivity.
Qed.

Lemma depth_app_left (r post : list rune) (open close : rune) (k j : Z) :
  0 <= k -> j < len r ->
  depth (r ++ post) open close k j = depth r open close k j.
Proof.
  intros Hk Hj. unfold depth. rewrite seg_app_left by lia. reflexivity.
Qed.

(** The index [findEndingParenthesis] returns is the only one that is the
    first at which the depth comes to 0, or the length when there is
    none. *)
Lemma fep_unique (r : list rune) (open close : rune) (openIdx e : Z) :
  rune_at r openIdx = Val open ->
  openIdx < e <= len r ->
  (forall j, openIdx < j < e -> 0 < depth r open close openIdx j) ->
  (e < len r -> depth r open close openIdx e = 0) ->
  findEndingParenthesis r open close openIdx = Val e.
Proof.
  intros Hopen He Hpos Hzero.
  destruct (fep_found r open close openIdx Hopen) as (e0 & Hf & He0 & Hpos0 & Hzero0).
  rewrite Hf. f_equal.
  destruct (Z.lt_trichotomy e0 e) as [Hlt|[Heq|Hgt]]; [|exact Heq|].
  - destruct (Hzero0 ltac:(lia)) as [H0 _].
    specialize (Hpos e0 ltac:(lia)). lia.
  - specialize (Hzero ltac:(lia)).
    specialize (Hpos0 e ltac:(lia)). lia.
Qed.

(** With a text put in front, the index returned moves by the length of
    that text. *)
Lemma fep_shift
        (pre r : list rune) (open close : rune) (openIdx : Z) :
  rune_at r openIdx = Val open ->
  exists e : Z,
    findEndingParenthesis r open close openIdx = Val e
    /\ findEndingParenthesis (pre ++ r) open close (len pre + openIdx)
       = Val (len pre + e).
Proof.
  intros Hopen. pose proof (rune_at_range _ _ _ Hopen) as Hr.
  destruct (fep_found r open close openIdx Hopen) as (e & Hf & He & Hpos & Hzero).
  exists e. split; [exact Hf|].
  apply fep_unique.
  - rewrite rune_at_app_right by lia. exact Hopen.
  - rewrite len_app. lia.
  - intros j Hj. replace j with (len pre + (j - len pre)) by lia.
    rewrite depth_app_right by lia. apply Hpos. lia.
  - rewrite len_app. intros Hlt. rewrite depth_app_right by lia.
    apply Hzero. lia.
Qed.

(** A closing bracket once found stays the one found whatever is put
    after the text; when none is found in the text, none is found before
    the end of the text whatever is put after it. *)
Lemma fep_extend
        (r post : list rune) (open close : rune) (openIdx e : Z) :
  rune_at r openIdx = Val open ->
  findEndingParenthesis r open close openIdx = Val e ->
  (e < len r ->
   findEndingParenthesis (r ++ post) open close openIdx = Val e)
  /\ (e = len r ->
      exists e', findEndingParenthesis (r ++ post) open close openIdx = Val e'
                 /\ len r <= e').
Proof.
  intros Hopen Hf. pose proof (rune_at_range _ _ _ Hopen) as Hr.
  destruct (fep_found r open close openIdx Hopen) as (e0 & Hf0 & He & Hpos & Hzero).
  rewrite Hf in Hf0. injection Hf0 as <-.
  assert (Hopen' : rune_at (r ++ post) openIdx = Val open)
    by (rewrite rune_at_app_left by lia; exact Hopen).
  split.
  - intros Hlt. apply fep_unique.
    + exact Hopen'.
    + rewrite len_app. pose proof (len_nonneg post). lia.
    + intros j Hj. rewrite depth_app_left by lia. apply Hpos. lia.
    + intros _. rewrite depth_app_left by lia. apply Hzero. exact Hlt.
  - intros ->.
    destruct (fep_found (r ++ post) open close openIdx Hopen')
      as (e' & Hf' & He' & _ & Hzero').
    exists e'. split; [exact Hf'|].
    destruct (Z.lt_ge_cases e' (len r)) as [Hlt|Hge]; [|exact Hge].
    rewrite len_app in Hzero'. pose proof (len_nonneg post).
    destruct (Hzero' ltac:(lia)) as [H0 _].
    rewrite depth_app_left in H0 by lia.
    specialize (Hpos e' ltac:(lia)). lia.
Qed.

(** With the same rune as opening and closing bracket no match is ever
    found. *)
Lemma fep_same_bracket
        (r : list rune) (bracket : rune) (openIdx : Z) :
  rune_at r openIdx = Val bracket ->
  findEndingParenthesis r bracket bracket openIdx = Val (len r).
Proof.
  intros Hopen. pose proof (rune_at_range _ _ _ Hopen) as Hr.
  apply fep_unique; try assumption; try lia.
  intros j _. unfold depth. lia.
Qed.

(** ** findEndingParenthesis on properly nested texts *)

Lemma occurrences_app (x : rune) (a b : list rune) :
  occurrences x (a ++ b) = occurrences x a + occurrences x b.
Proof. unfold occurrences. rewrite count_occ_app. apply Nat2Z.inj_add. Qed.

Section Nested.

Variables open close : rune.
Hypothesis brackets_differ : open <> close.

Local Notation net l := (occurrences open l - occurrences close l).

Lemma net_open (l : list rune) : net (open :: l) = 1 + net l.
Proof.
  rewrite !occurrences_cons, Z.eqb_refl.
  replace (open =? close) with false by (symmetry; apply Z.eqb_neq; assumption).
  lia.
Qed.

Lemma net_close (l : list rune) : net (close :: l) = net l - 1.
Proof.
  rewrite !occurrences_cons, Z.eqb_refl.
  replace (close =? open) with false by (symmetry; apply Z.eqb_neq; congruence).
  lia.
Qed.

Lemma net_other (x : rune) (l : list rune) :
  x <> open -> x <> close -> net (x :: l) = net l.
Proof.
  intros Ho Hc. rewrite !occurrences_cons.
  apply Z.eqb_neq in Ho, Hc. rewrite Ho, Hc. lia.
Qed.

(** In a nested text as many brackets close as open, and at no point have
    more closed than opened. *)
Lemma nested_net (l : list rune) :
  nested open close l ->
  net l = 0 /\ forall n : nat, 0 <= net (firstn n l).
Proof.
  induction 1 as [|x l Ho Hc _ [IH0 IHp]|l1 l2 _ [IH1 IHp1] _ [IH2 IHp2]].
  - split; [reflexivity|]. intros n. rewrite firstn_nil. reflexivity.
  - split; [rewrite net_other by assumption; exact IH0|].
    intros [|n]; [reflexivity|].
    rewrite firstn_cons, net_other by assumption. apply IHp.
  - split.
    + rewrite net_open, !occurrences_app.
      pose proof (net_close l2) as Hc. lia.
    + intros [|n]; [reflexivity|]. rewrite firstn_cons, net_open.
      rewrite firstn_app, !occurrences_app.
      specialize (IHp1 n).
      destruct (n - List.length l1)%nat as [|m] eqn:Hm; cbn [firstn].
      * change (occurrences open []) with 0.
        change (occurrences close []) with 0. lia.
      * assert (Hall : firstn n l1 = l1) by (apply firstn_all2; lia).
        rewrite Hall. pose proof (net_close (firstn m l2)) as Hc.
        specialize (IHp2 m). lia.
Qed.

(** After an opening bracket and a properly nested text, the closing
    bracket that follows is the one found; with nothing that follows, the
    length is returned. *)
Lemma fep_nested (pre inner post : list rune) :
  nested open close inner ->
  findEndingParenthesis (pre ++ open :: inner ++ close :: post) open close
    (len pre)
  = Val (len pre + 1 + len inner)
  /\ findEndingParenthesis (pre ++ open :: inner) open close (len pre)
     = Val (len (pre ++ open :: inner)).
Proof.
  intros Hn. destruct (nested_net inner Hn) as [Hnet Hprefix].
  pose proof (len_nonneg pre) as Hpre. pose proof (len_nonneg inner) as Hin.
  pose proof (len_nonneg post) as Hpost.
  assert (Hseg : forall (tail : list rune) (j : Z),
             len pre < j ->
             seg (pre ++ open :: inner ++ tail) (len pre + 1) (j + 1)
             = firstn (Z.to_nat (j - len pre)) (inner ++ tail)).
  { intros tail j Hj.
    change (pre ++ open :: inner ++ tail)
      with (pre ++ [open] ++ (inner ++ tail)).
    rewrite app_assoc.
    replace (len pre + 1) with (len (pre ++ [open]) + 0)
      by (rewrite len_app; unfold len; simpl; lia).
    replace (j + 1) with (len (pre ++ [open]) + (j - len pre))
      by (rewrite len_app; unfold len; simpl; lia).
    rewrite seg_app_right by lia. unfold seg. simpl. f_equal. lia. }
  assert (Hopen : forall tail,
             rune_at (pre ++ open :: inner ++ tail) (len pre) = Val open).
  { intros tail. replace (len pre) with (len pre + 0) by lia.
    rewrite rune_at_app_right by lia. reflexivity. }
  assert (Hinside : forall tail j,
             len pre < j < len pre + 1 + len inner ->
             0 < depth (pre ++ open :: inner ++ tail) open close (len pre) j).
  { intros tail j Hj. unfold depth. rewrite Hseg by lia.
    rewrite firstn_app.
    replace (Z.to_nat (j - len pre) - List.length inner)%nat with 0%nat
      by (unfold len in *; lia).
    cbn [firstn]. rewrite app_nil_r.
    specialize (Hprefix (Z.to_nat (j - len pre))). lia. }
  split.
  - apply fep_unique.
    + apply Hopen.
    + rewrite len_app, len_cons, len_app, len_cons. lia.
    + apply Hinside.
    + intros _. unfold depth. rewrite Hseg by lia.
      replace (Z.to_nat (len pre + 1 + len inner - len pre))
        with (List.length inner + 1)%nat by (unfold len; lia).
      rewrite firstn_app.
      replace (List.length inner + 1 - List.length inner)%nat with 1%nat by lia.
      rewrite firstn_all2 by lia. cbn [firstn].
      rewrite !occurrences_app. pose proof (net_close []) as Hc.
      change (occurrences open []) with 0 in Hc.
      change (occurrences close []) with 0 in Hc. lia.
  - replace (open :: inner) with (open :: inner ++ []) by (rewrite app_nil_r; reflexivity).
    apply fep_unique.
    + apply Hopen.
    + rewrite len_app, len_cons, app_nil_r. lia.
    + intros j Hj. apply Hinside.
      rewrite len_app, len_cons, app_nil_r in Hj. lia.
    + intros Hlt. lia.
Qed.

End Nested.

(** ** resolveShellSubstitution and concatenation *)

Section Compose.

Context {World : Type}.
Variable LookupEnv : World -> gostring -> option gostring.
Variable ExecuteCommandInShell :
  World -> Z -> gostring -> gostring ->
  World * (Z * gostring * option exec_error).
Variable subCmdTimeout : Z.
Variable cwdLocation : gostring.
Variables a b : list rune.

Local Notation turn_on cmd :=
  (rss_turn LookupEnv ExecuteCommandInShell subCmdTimeout cmd cwdLocation).
Local Notation body_on cmd :=
  (rss_body LookupEnv ExecuteCommandInShell subCmdTimeout cmd cwdLocation).
Local Notation reaches_on cmd :=
  (rss_reaches LookupEnv ExecuteCommandInShell subCmdTimeout cmd cwdLocation).
Local Notation visits_on cmd :=
  (rss_visits LookupEnv ExecuteCommandInShell subCmdTimeout cmd cwdLocation).
Local Notation resolve_on cmd :=
  (resolveShellSubstitution LookupEnv ExecuteCommandInShell subCmdTimeout cmd
     cwdLocation).

(** A turn over [b] is the same turn over [a ++ b], [len a] runes later. *)
Lemma rss_turn_after (ra : gostring) (s : @rss_state World)
      (c : ctl (@rss_state World) (@rss_result World)) :
  turn_on b s c ->
  turn_on (a ++ b) (rss_shift (len a) ra s) (ctl_shift (len a) ra c).
Proof.
  intros Ht.
  assert (Hat : forall j, 0 <= j ->
                          rune_at (a ++ b) (rss_i (rss_shift (len a) ra s) + j)
                          = rune_at b (rss_i s + j)).
  { intros j Hj. simpl. rewrite <- Z.add_assoc.
    destruct Ht as [x Hx _|Hd _ _|e Hd _ _ _ _|e v Hd _ _ _ _
                   |Hd _ _|e w' o er Hd _ _ _ _|e w' rc o er Hd _ _ _ _ _];
      (apply rune_at_app_right;
       match goal with H : rune_at b (rss_i s) = _ |- _ =>
         pose proof (rune_at_range _ _ _ H) end; lia). }
  assert (Hat0 : rune_at (a ++ b) (rss_i (rss_shift (len a) ra s))
                 = rune_at b (rss_i s)).
  { specialize (Hat 0 (Z.le_refl 0)). rewrite !Z.add_0_r in Hat. exact Hat. }
  assert (Hfep : forall open close e,
             rune_at b (rss_i s + 1) = Val open ->
             findEndingParenthesis b open close (rss_i s + 1) = Val e ->
             findEndingParenthesis (a ++ b) open close
               (rss_i (rss_shift (len a) ra s) + 1) = Val (len a + e)).
  { intros open close e Hopen Hf.
    destruct (fep_shift a b open close (rss_i s + 1) Hopen) as (e0 & Hf0 & Hs).
    rewrite Hf in Hf0. injection Hf0 as <-. simpl.
    rewrite <- Z.add_assoc. exact Hs. }
  assert (Hseg : forall e, 0 <= rss_i s ->
             seg (a ++ b) (rss_i (rss_shift (len a) ra s) + 2) (len a + e)
             = seg b (rss_i s + 2) e).
  { intros e Hi. simpl. rewrite <- Z.add_assoc. apply seg_app_right. lia. }
  destruct Ht as [x Hx Hnot
                 |Hd Hb Hf
                 |e Hd Hb Hf He Hl
                 |e value Hd Hb Hf He Hl
                 |Hd Hb Hf
                 |e w' output err Hd Hb Hf He Hx
                 |e w' retCode output err Hd Hb Hf He Hx Hrc];
    try pose proof (rune_at_range _ _ _ Hd) as Hr.
  - replace (ctl_shift (len a) ra
               (Continue (mk_rss (rss_i s + 1) (rss_res s ++ [x]) (rss_world s))))
      with (@Continue (@rss_state World) (@rss_result World)
              (mk_rss (rss_i (rss_shift (len a) ra s) + 1)
                 (rss_res (rss_shift (len a) ra s) ++ [x])
                 (rss_world (rss_shift (len a) ra s))))
      by (simpl; unfold rss_shift; simpl; f_equal; f_equal;
          [lia|symmetry; apply app_assoc]).
    apply turn_copy.
    + rewrite Hat0. exact Hx.
    + intros Hd n Hn. rewrite Hat in Hn by lia. exact (Hnot Hd n Hn).
  - replace (ctl_shift (len a) ra
               (Return (rss_world s, ([], Some curlyBracketParMatchError))))
      with (@Return (@rss_state World) (@rss_result World)
              (rss_world (rss_shift (len a) ra s),
               ([], Some curlyBracketParMatchError)))
      by reflexivity.
    apply turn_curly_unmatched.
    + rewrite Hat0. exact Hd.
    + rewrite Hat by lia. exact Hb.
    + rewrite len_app. apply Hfep; assumption.
  - simpl ctl_shift. rewrite <- (Hseg e) by lia.
    apply (turn_env_missing LookupEnv ExecuteCommandInShell subCmdTimeout
             (a ++ b) cwdLocation (rss_shift (len a) ra s) (len a + e)).
    + rewrite Hat0. exact Hd.
    + rewrite Hat by lia. exact Hb.
    + apply Hfep; assumption.
    + rewrite len_app. simpl. lia.
    + rewrite Hseg by lia. exact Hl.
  - replace (ctl_shift (len a) ra
               (Continue (mk_rss (e + 1) (rss_res s ++ value) (rss_world s))))
      with (@Continue (@rss_state World) (@rss_result World)
              (mk_rss (len a + e + 1)
                 (rss_res (rss_shift (len a) ra s) ++ value)
                 (rss_world (rss_shift (len a) ra s))))
      by (simpl; unfold rss_shift; simpl; f_equal; f_equal;
          [lia|symmetry; apply app_assoc]).
    apply (turn_env_found LookupEnv ExecuteCommandInShell subCmdTimeout
             (a ++ b) cwdLocation (rss_shift (len a) ra s) (len a + e) value).
    + rewrite Hat0. exact Hd.
    + rewrite Hat by lia. exact Hb.
    + apply Hfep; assumption.
    + rewrite len_app. simpl. lia.
    + rewrite Hseg by lia. exact Hl.
  - replace (ctl_shift (len a) ra
               (Return (rss_world s, ([], Some bracketParMatchError))))
      with (@Return (@rss_state World) (@rss_result World)
              (rss_world (rss_shift (len a) ra s),
               ([], Some bracketParMatchError)))
      by reflexivity.
    apply turn_round_unmatched.
    + rewrite Hat0. exact Hd.
    + rewrite Hat by lia. exact Hb.
    + rewrite len_app. apply Hfep; assumption.
  - simpl ctl_shift. rewrite <- (Hseg e) by lia.
    apply (turn_exec_failed LookupEnv ExecuteCommandInShell subCmdTimeout
             (a ++ b) cwdLocation (rss_shift (len a) ra s) (len a + e)
             w' output err).
    + rewrite Hat0. exact Hd.
    + rewrite Hat by lia. exact Hb.
    + apply Hfep; assumption.
    + rewrite len_app. simpl. lia.
    + rewrite Hseg by lia. exact Hx.
  - replace (ctl_shift (len a) ra
               (Continue (mk_rss (e + 1) (rss_res s ++ output) w')))
      with (@Continue (@rss_state World) (@rss_result World)
              (mk_rss (len a + e + 1)
                 (rss_res (rss_shift (len a) ra s) ++ output) w'))
      by (simpl; unfold rss_shift; simpl; f_equal; f_equal;
          [lia|symmetry; apply app_assoc]).
    apply (turn_exec_ok LookupEnv ExecuteCommandInShell subCmdTimeout
             (a ++ b) cwdLocation (rss_shift (len a) ra s) (len a + e)
             w' retCode output err).
    + rewrite Hat0. exact Hd.
    + rewrite Hat by lia. exact Hb.
    + apply Hfep; assumption.
    + rewrite len_app. simpl. lia.
    + rewrite Hseg by lia. exact Hx.
    + exact Hrc.
Qed.

(** A turn over [a] that goes on, or fails on the environment or the
    shell, is the same turn over [a ++ b], unless the last rune of [a] and
    the first of [b] start a substitution. *)
Lemma rss_turn_before (s : @rss_state World)
      (c : ctl (@rss_state World) (@rss_result World)) :
  turn_on a s c ->
  ~ splits_span a b ->
  (forall w r, c <> Return (w, (r, Some curlyBracketParMatchError))
               /\ c <> Return (w, (r, Some bracketParMatchError))) ->
  turn_on (a ++ b) s c.
Proof.
  intros Ht Hsplit Hmatched.
  assert (Hat : forall j, j < len a -> rune_at (a ++ b) j = rune_at a j)
    by (intros j Hj; apply rune_at_app_left; exact Hj).
  assert (Hfep : forall open close e,
             rune_at a (rss_i s + 1) = Val open ->
             findEndingParenthesis a open close (rss_i s + 1) = Val e ->
             e < len a ->
             findEndingParenthesis (a ++ b) open close (rss_i s + 1) = Val e).
  { intros open close e Hopen Hf He.
    apply (proj1 (fep_extend a b open close (rss_i s + 1) e Hopen Hf) He). }
  pose proof (len_nonneg b) as Hlb.
  destruct Ht as [x Hx Hnot
                 |Hd Hb Hf
                 |e Hd Hb Hf He Hl
                 |e value Hd Hb Hf He Hl
                 |Hd Hb Hf
                 |e w' output err Hd Hb Hf He Hx
                 |e w' retCode output err Hd Hb Hf He Hx Hrc];
    try pose proof (rune_at_range _ _ _ Hd) as Hr.
  - pose proof (rune_at_range _ _ _ Hx) as Hr.
    apply turn_copy; [rewrite Hat by lia; exact Hx|].
    intros Hd n Hn.
    destruct (Z.lt_ge_cases (rss_i s + 1) (len a)) as [Hlt|Hge].
    + rewrite Hat in Hn by lia. exact (Hnot Hd n Hn).
    + assert (Hlast : rss_i s = len a - 1) by lia.
      replace (rss_i s + 1) with (len a + 0) in Hn by lia.
      rewrite rune_at_app_right in Hn by lia.
      subst x. rewrite Hlast in Hx.
      split; intros ->; apply Hsplit; (split; [exact Hx|]); [left|right]; exact Hn.
  - exfalso. apply (proj1 (Hmatched (rss_world s) [])). reflexivity.
  - rewrite <- (seg_app_left a b (rss_i s + 2) e) by lia.
    apply (turn_env_missing LookupEnv ExecuteCommandInShell subCmdTimeout
             (a ++ b) cwdLocation s e).
    + rewrite Hat by lia. exact Hd.
    + rewrite Hat by lia. exact Hb.
    + apply Hfep; [assumption..|lia].
    + rewrite len_app. lia.
    + rewrite seg_app_left by lia. exact Hl.
  - apply (turn_env_found LookupEnv ExecuteCommandInShell subCmdTimeout
             (a ++ b) cwdLocation s e value).
    + rewrite Hat by lia. exact Hd.
    + rewrite Hat by lia. exact Hb.
    + apply Hfep; [assumption..|lia].
    + rewrite len_app. lia.
    + rewrite seg_app_left by lia. exact Hl.
  - exfalso. apply (proj2 (Hmatched (rss_world s) [])). reflexivity.
  - rewrite <- (seg_app_left a b (rss_i s + 2) e) by lia.
    apply (turn_exec_failed LookupEnv ExecuteCommandInShell subCmdTimeout
             (a ++ b) cwdLocation s e w' output err).
    + rewrite Hat by lia. exact Hd.
    + rewrite Hat by lia. exact Hb.
    + apply Hfep; [assumption..|lia].
    + rewrite len_app. lia.
    + rewrite seg_app_left by lia. exact Hx.
  - apply (turn_exec_ok LookupEnv ExecuteCommandInShell subCmdTimeout
             (a ++ b) cwdLocation s e w' retCode output err).
    + rewrite Hat by lia. exact Hd.
    + rewrite Hat by lia. exact Hb.
    + apply Hfep; [assumption..|lia].
    + rewrite len_app. lia.
    + rewrite seg_app_left by lia. exact Hx.
    + exact Hrc.
Qed.

(** The states the loop over [a] comes to, the loop over [a ++ b] comes
    to. *)
Lemma rss_reaches_before (s0 s : @rss_state World) :
  reaches_on a s0 s -> 0 <= rss_i s0 -> ~ splits_span a b ->
  reaches_on (a ++ b) s0 s.
Proof.
  intros Hreach H0 Hsplit.
  induction Hreach as [|s1 s2 Hreach IH Hc Hb]; [apply rss_reaches_here|].
  pose proof (rss_reaches_index _ _ _ _ _ _ _ Hreach H0) as Hi.
  apply rss_cond_true in Hc.
  eapply rss_reaches_turn; [exact IH|apply rss_cond_true; rewrite len_app;
                                     pose proof (len_nonneg b); lia|].
  apply rss_turn_body. apply rss_turn_before; [|exact Hsplit|].
  - apply rss_body_is_turn; [lia|exact Hb].
  - intros w r. split; discriminate.
Qed.

(** The states the loop over [b] comes to, the loop over [a ++ b] comes to
    [len a] runes later. *)
Lemma rss_reaches_after (ra : gostring) (s0 s : @rss_state World) :
  reaches_on b s0 s -> 0 <= rss_i s0 ->
  reaches_on (a ++ b) (rss_shift (len a) ra s0) (rss_shift (len a) ra s).
Proof.
  intros Hreach H0.
  induction Hreach as [|s1 s2 Hreach IH Hc Hb]; [apply rss_reaches_here|].
  pose proof (rss_reaches_index _ _ _ _ _ _ _ Hreach H0) as Hi.
  apply rss_cond_true in Hc.
  eapply rss_reaches_turn; [exact IH|apply rss_cond_true; rewrite len_app;
                                     simpl; lia|].
  apply rss_turn_body.
  apply (rss_turn_after ra s1 (Continue s2)).
  apply rss_body_is_turn; [lia|exact Hb].
Qed.

(** What a call returns, it returns from a state it visits: past the last
    rune, or in a turn that fails. *)
Lemma rss_result_visited (cmd : list rune) (w0 : World) (v : @rss_result World) :
  resolve_on cmd w0 = Val v ->
  (exists s, visits_on cmd w0 s /\ rss_i s = len cmd
             /\ v = (rss_world s, (rss_res s, None)))
  \/ (exists s w e, visits_on cmd w0 s /\ 0 <= rss_i s < len cmd
                    /\ v = (w, ([], Some e))
                    /\ turn_on cmd s (Return v)).
Proof.
  intros Hr.
  destruct (rss_rule LookupEnv ExecuteCommandInShell subCmdTimeout cmd cwdLocation
              (fun s => visits_on cmd w0 s /\ rss_i s <= len cmd) w0)
    as (v' & Hv' & Hcase).
  { split; [apply rss_reaches_here|]. simpl. apply len_nonneg. }
  { intros s c [Hv Hle] Hi Ht. destruct c as [s'|]; [|exact I].
    split.
    - eapply rss_visits_turn; [exact Hv|apply rss_cond_true; lia|].
      apply rss_turn_body. exact Ht.
    - inversion Ht; subst; simpl; lia. }
  rewrite Hr in Hv'. injection Hv' as <-.
  destruct Hcase as [(s & [Hv Hle] & Hge & ->)|(s & [Hv Hle] & Hi & Ht)].
  - left. exists s. split; [exact Hv|]. split; [lia|reflexivity].
  - right. exists s.
    inversion Ht; subst; do 2 eexists; (split; [exact Hv|]);
      (split; [exact Hi|]); (split; [reflexivity|]); exact Ht.
Qed.

(** When [a] resolves, [a ++ b] resolves to the output of [a] followed by
    that of [b] resolved in the world [a] left, or fails as [b] does. *)
Lemma rss_app (w0 w1 w2 : World) (ra rb : gostring) (oe : option error) :
  ~ splits_span a b ->
  resolve_on a w0 = Val (w1, (ra, None)) ->
  resolve_on b w1 = Val (w2, (rb, oe)) ->
  resolve_on (a ++ b) w0
  = Val (w2, (match oe with None => ra ++ rb | Some _ => [] end, oe)).
Proof.
  intros Hsplit Ha Hb.
  (* the loop over [a ++ b] comes to the end of [a] as the loop over [a] *)
  assert (Hmid : visits_on (a ++ b) w0
                   (rss_shift (len a) ra (mk_rss 0 [] w1))).
  { destruct (rss_result_visited a w0 _ Ha)
      as [(s & Hv & Hi & Heq)|(s & w & e & _ & _ & Heq & _)];
      [|discriminate].
    injection Heq as -> ->.
    replace (rss_shift (len a) (rss_res s) (mk_rss 0 [] (rss_world s))) with s.
    - apply rss_reaches_before; [exact Hv|simpl; lia|exact Hsplit].
    - destruct s as [i r w]. simpl in Hi. subst i. unfold rss_shift. simpl.
      rewrite Z.add_0_r, app_nil_r. reflexivity. }
  (* and goes on from there as the loop over [b] *)
  assert (Hlater : forall s, visits_on b w1 s ->
                             visits_on (a ++ b) w0 (rss_shift (len a) ra s)).
  { intros s Hv. eapply rss_reaches_trans; [exact Hmid|].
    apply rss_reaches_after; [exact Hv|simpl; lia]. }
  destruct (rss_result_visited b w1 _ Hb)
    as [(s & Hv & Hi & Heq)|(s & w & e & Hv & Hi & Heq & Ht)].
  - injection Heq as -> -> ->.
    rewrite (rss_visits_end _ _ _ _ _ _ _ (Hlater s Hv)); [reflexivity|].
    apply rss_cond_false. rewrite len_app. simpl. lia.
  - injection Heq as -> -> ->.
    apply (rss_visits_return _ _ _ _ _ _ _ _ (Hlater s Hv)).
    + apply rss_cond_true. rewrite len_app. simpl. lia.
    + apply rss_turn_body. exact (rss_turn_after ra s _ Ht).
Qed.


(** When [a] fails on the environment or on the shell, [a ++ b] fails the
    same way. *)
Lemma rss_app_failure (w0 w1 : World) (ra : gostring) (e : error) :
  ~ splits_span a b ->
  resolve_on a w0 = Val (w1, (ra, Some e)) ->
  e <> curlyBracketParMatchError ->
  e <> bracketParMatchError ->
  resolve_on (a ++ b) w0 = Val (w1, (ra, Some e)).
Proof.
  intros Hsplit Ha Hcurly Hround.
  destruct (rss_result_visited a w0 _ Ha)
    as [(s & _ & _ & Heq)|(s & w & e' & Hv & Hi & Heq & Ht)];
    [discriminate|].
  apply (rss_visits_return LookupEnv ExecuteCommandInShell subCmdTimeout
           (a ++ b) cwdLocation w0 s).
  - apply rss_reaches_before; [exact Hv|simpl; lia|exact Hsplit].
  - apply rss_cond_true. rewrite len_app. pose proof (len_nonneg b). lia.
  - apply rss_turn_body. apply rss_turn_before; [exact Ht|exact Hsplit|].
    intros w' r. split; intros Hc; injection Hc as _ _ Hc; congruence.
Qed.

End Compose.

(** ** A substitution on its own *)

Section Spans.

Context {World : Type}.
Variable LookupEnv : World -> gostring -> option gostring.
Variable ExecuteCommandInShell :
  World -> Z -> gostring -> gostring ->
  World * (Z * gostring * option exec_error).
Variable subCmdTimeout : Z.
Variable cwdLocation : gostring.

Local Notation resolve_on cmd :=
  (resolveShellSubstitution LookupEnv ExecuteCommandInShell subCmdTimeout cmd
     cwdLocation).
Local Notation visits_on cmd :=
  (rss_visits LookupEnv ExecuteCommandInShell subCmdTimeout cmd cwdLocation).

Lemma braces_differ : r_lbrace <> r_rbrace.
Proof. discriminate. Qed.

Lemma parens_differ : r_lparen <> r_rparen.
Proof. discriminate. Qed.

(** The slice between the brackets of a span that starts the command. *)
Lemma seg_span (open close : rune) (inner : list rune) :
  seg (r_dollar :: open :: inner ++ [close]) 2 (2 + len inner) = inner.
Proof.
  pose proof (seg_app_right [r_dollar; open] (inner ++ [close]) 0 (len inner)
                (Z.le_refl 0)) as H.
  change (len [r_dollar; open]) with 2 in H.
  replace (2 + 0) with 2 in H by reflexivity.
  change ([r_dollar; open] ++ inner ++ [close])
    with (r_dollar :: open :: inner ++ [close]) in H.
  rewrite H. unfold seg. rewrite Z.sub_0_r.
  replace (Z.to_nat (len inner)) with (List.length inner) by (unfold len; lia).
  change (Z.to_nat 0) with 0%nat. cbn [skipn].
  rewrite firstn_app, Nat.sub_diag, firstn_all. cbn [firstn]. apply app_nil_r.
Qed.

Lemma fep_span (open close : rune) (inner : list rune) :
  open <> close -> nested open close inner ->
  findEndingParenthesis (r_dollar :: open :: inner ++ [close]) open close 1
  = Val (2 + len inner).
Proof.
  intros Hne Hn.
  pose proof (proj1 (fep_nested open close Hne [r_dollar] inner [] Hn)) as Hf.
  change (len [r_dollar]) with 1 in Hf.
  replace (1 + 1 + len inner) with (2 + len inner) in Hf by lia.
  exact Hf.
Qed.

Lemma rune_at_head (x : rune) (l : list rune) : rune_at (x :: l) 0 = Val x.
Proof.
  apply rune_at_Val. split; [|reflexivity].
  rewrite len_cons. pose proof (len_nonneg l). lia.
Qed.

Lemma rune_at_second (x y : rune) (l : list rune) :
  rune_at (x :: y :: l) (0 + 1) = Val y.
Proof. rewrite rune_at_cons by lia. apply rune_at_head. Qed.

(** [${name}] on its own gives the value of [name], or fails when [name]
    is not set. *)
Lemma rss_env_span (w : World) (name : gostring) :
  nested r_lbrace r_rbrace name ->
  resolve_on (r_dollar :: r_lbrace :: name ++ [r_rbrace]) w
  = Val (w, match LookupEnv w name with
            | Some value => (value, None)
            | None => ([], Some (envVarNotFoundError name))
            end).
Proof.
  intros Hn.
  set (cmd := r_dollar :: r_lbrace :: name ++ [r_rbrace]).
  pose proof (len_nonneg name) as Hlen.
  assert (Hcmd : len cmd = len name + 3).
  { unfold cmd. rewrite !len_cons, len_app. unfold len at 2. simpl List.length. lia. }
  pose proof (fep_span r_lbrace r_rbrace name braces_differ Hn) as Hf.
  pose proof (seg_span r_lbrace r_rbrace name) as Hseg.
  fold cmd in Hf, Hseg.
  assert (Hc : rss_cond cmd (mk_rss 0 [] w) = true)
    by (apply rss_cond_true; cbn [rss_i]; lia).
  destruct (LookupEnv w name) as [value|] eqn:Hl.
  - assert (Hv : visits_on cmd w (mk_rss (2 + len name + 1) ([] ++ value) w)).
    { eapply rss_visits_turn; [apply rss_reaches_here|exact Hc|].
      apply rss_turn_body.
      apply (turn_env_found LookupEnv ExecuteCommandInShell subCmdTimeout cmd
               cwdLocation (mk_rss 0 [] w) (2 + len name) value);
        cbn [rss_i rss_res rss_world].
      - apply rune_at_head.
      - apply rune_at_second.
      - exact Hf.
      - lia.
      - change (0 + 2) with 2. rewrite Hseg. exact Hl. }
    rewrite (rss_visits_end _ _ _ _ _ _ _ Hv); [reflexivity|].
    apply rss_cond_false. cbn [rss_i]. lia.
  - eapply rss_visits_return; [apply rss_reaches_here|exact Hc|].
    apply rss_turn_body.
    replace (envVarNotFoundError name)
      with (envVarNotFoundError (seg cmd (0 + 2) (2 + len name)))
      by (change (0 + 2) with 2; rewrite Hseg; reflexivity).
    apply (turn_env_missing LookupEnv ExecuteCommandInShell subCmdTimeout cmd
             cwdLocation (mk_rss 0 [] w) (2 + len name));
      cbn [rss_i rss_res rss_world].
    + apply rune_at_head.
    + apply rune_at_second.
    + exact Hf.
    + lia.
    + change (0 + 2) with 2. rewrite Hseg. exact Hl.
Qed.

(** [$(subCmd)] on its own gives the output of [subCmd], or fails when the
    shell returns -1. *)
Lemma rss_shell_span (w w' : World) (subCmd output : gostring) (retCode : Z)
      (err : option exec_error) :
  nested r_lparen r_rparen subCmd ->
  ExecuteCommandInShell w subCmdTimeout cwdLocation subCmd
  = (w', (retCode, output, err)) ->
  resolve_on (r_dollar :: r_lparen :: subCmd ++ [r_rparen]) w
  = Val (w', if retCode =? -1
             then ([], Some (couldNotExecuteError subCmd err))
             else (output, None)).
Proof.
  intros Hn Hx.
  set (cmd := r_dollar :: r_lparen :: subCmd ++ [r_rparen]).
  pose proof (len_nonneg subCmd) as Hlen.
  assert (Hcmd : len cmd = len subCmd + 3).
  { unfold cmd. rewrite !len_cons, len_app. unfold len at 2. simpl List.length. lia. }
  pose proof (fep_span r_lparen r_rparen subCmd parens_differ Hn) as Hf.
  pose proof (seg_span r_lparen r_rparen subCmd) as Hseg.
  fold cmd in Hf, Hseg.
  assert (Hc : rss_cond cmd (mk_rss 0 [] w) = true)
    by (apply rss_cond_true; cbn [rss_i]; lia).
  destruct (Z.eqb_spec retCode (-1)) as [->|Hrc].
  - eapply rss_visits_return; [apply rss_reaches_here|exact Hc|].
    apply rss_turn_body.
    replace (couldNotExecuteError subCmd err)
      with (couldNotExecuteError (seg cmd (0 + 2) (2 + len subCmd)) err)
      by (change (0 + 2) with 2; rewrite Hseg; reflexivity).
    apply (turn_exec_failed LookupEnv ExecuteCommandInShell subCmdTimeout cmd
             cwdLocation (mk_rss 0 [] w) (2 + len subCmd) w' output err);
      cbn [rss_i rss_res rss_world].
    + apply rune_at_head.
    + apply rune_at_second.
    + exact Hf.
    + lia.
    + change (0 + 2) with 2. rewrite Hseg. exact Hx.
  - assert (Hv : visits_on cmd w (mk_rss (2 + len subCmd + 1) ([] ++ output) w')).
    { eapply rss_visits_turn; [apply rss_reaches_here|exact Hc|].
      apply rss_turn_body.
      apply (turn_exec_ok LookupEnv ExecuteCommandInShell subCmdTimeout cmd
               cwdLocation (mk_rss 0 [] w) (2 + len subCmd) w' retCode output err);
        cbn [rss_i rss_res rss_world].
      - apply rune_at_head.
      - apply rune_at_second.
      - exact Hf.
      - lia.
      - change (0 + 2) with 2. rewrite Hseg. exact Hx.
      - exact Hrc. }
    rewrite (rss_visits_end _ _ _ _ _ _ _ Hv); [reflexivity|].
    apply rss_cond_false. cbn [rss_i]. lia.
Qed.

End Spans.

(** ** A substitution in the middle of a command *)

Section SpanClaims.

Context {World : Type}.
Variable LookupEnv : World -> gostring -> option gostring.
Variable ExecuteCommandInShell :
  World -> Z -> gostring -> gostring ->
  World * (Z * gostring * option exec_error).
Variable shellSubTimeout : Z.
Variable command : gostring.
Variable cwdLocation : gostring.

Local Notation body :=
  (rss_body LookupEnv ExecuteCommandInShell shellSubTimeout command cwdLocation).
Local Notation cond := (@rss_cond World command).
Local Notation visits :=
  (rss_visits LookupEnv ExecuteCommandInShell shellSubTimeout command cwdLocation).
Local Notation resolve :=
  (resolveShellSubstitution LookupEnv ExecuteCommandInShell shellSubTimeout
     command cwdLocation).
Local Notation resolve_on cmd :=
  (resolveShellSubstitution LookupEnv ExecuteCommandInShell shellSubTimeout cmd
     cwdLocation).







End SpanClaims.



(** ** strings.Fields, white space and joining *)

Local Notation nonspace := (fun x : rune => negb (isSpace x)).
Local Notation blank := (Forall (fun x : rune => isSpace x = true)).

Lemma fields_scan_concat (s : gostring) :
  forall field : option gostring,
    List.concat (fields_scan field s)
    = match field with Some f => f | None => [] end ++ filter nonspace s.
Proof.
  induction s as [|x s IH]; intros field; simpl.
  - destruct field; simpl; rewrite ?app_nil_r; reflexivity.
  - destruct (isSpace x); simpl.
    + destruct field as [f|]; simpl; rewrite IH; reflexivity.
    + rewrite IH. destruct field as [f|]; [rewrite <- app_assoc|]; reflexivity.
Qed.

Lemma fields_scan_blank (ws : gostring) :
  blank ws ->
  forall field : option gostring,
    fields_scan field ws = match field with Some f => [f] | None => [] end.
Proof.
  induction 1 as [|x ws Hx _ IH]; intros field; simpl; [reflexivity|].
  rewrite Hx. destruct field; rewrite IH; reflexivity.
Qed.

Lemma fields_scan_app_blank (s ws : gostring) :
  blank ws ->
  forall field : option gostring,
    fields_scan field (s ++ ws) = fields_scan field s.
Proof.
  intros Hws. induction s as [|x s IH]; intros field.
  - simpl app. rewrite (fields_scan_blank ws Hws). reflexivity.
  - simpl. destruct (isSpace x); [destruct field|]; rewrite IH; reflexivity.
Qed.

Lemma Fields_blank_app (ws s : gostring) :
  blank ws -> Fields (ws ++ s) = Fields s.
Proof.
  unfold Fields. induction 1 as [|x ws Hx _ IH]; [reflexivity|].
  simpl. rewrite Hx. exact IH.
Qed.

Lemma fields_scan_word (t : gostring) :
  Forall (fun x => isSpace x = false) t ->
  forall (f rest : gostring),
    fields_scan (Some f) (t ++ rest) = fields_scan (Some (f ++ t)) rest.
Proof.
  induction 1 as [|x t Hx _ IH]; intros f rest.
  - rewrite app_nil_r. reflexivity.
  - simpl. rewrite Hx, IH, <- app_assoc. reflexivity.
Qed.

Lemma Fields_word (t rest : gostring) :
  is_field t -> Fields (t ++ rest) = fields_scan (Some t) rest.
Proof.
  intros [Hne Hall]. destruct t as [|x t]; [congruence|].
  inversion Hall as [|? ? Hx Ht]; subst.
  unfold Fields. simpl. rewrite Hx.
  exact (fields_scan_word t Ht [x] rest).
Qed.

(** The fields of fields joined by single spaces are those fields. *)
Lemma Fields_join_space (toks : list gostring) :
  Forall is_field toks -> Fields (join_space toks) = toks.
Proof.
  induction 1 as [|t toks Ht Hall IH]; [reflexivity|].
  destruct toks as [|t2 toks].
  - simpl. rewrite <- (app_nil_r t) at 1. rewrite (Fields_word t [] Ht).
    reflexivity.
  - change (join_space (t :: t2 :: toks))
      with (t ++ 32 :: join_space (t2 :: toks)).
    rewrite (Fields_word t _ Ht). simpl fields_scan at 1.
    change (isSpace 32) with true. cbn iota. f_equal. exact IH.
Qed.

(** The fields on both sides of a space are found one side after the
    other. *)
Lemma fields_scan_app_space (x y : gostring) :
  forall field : option gostring,
    fields_scan field (x ++ 32 :: y) = fields_scan field x ++ Fields y.
Proof.
  induction x as [|c x IH]; intros field.
  - simpl app. simpl fields_scan at 1. change (isSpace 32) with true. cbn iota.
    destruct field; reflexivity.
  - simpl. destruct (isSpace c); [destruct field|]; rewrite IH; reflexivity.
Qed.

Lemma rune_at_In (r : list rune) (i : Z) (x : rune) :
  rune_at r i = Val x -> In x r.
Proof.
  intros H. apply rune_at_Val in H. destruct H as [_ H].
  eapply nth_error_In. exact H.
Qed.

Lemma blank_no_rune (ws : gostring) (i : Z) (x : rune) :
  blank ws -> isSpace x = false -> rune_at ws i <> Val x.
Proof.
  intros Hws Hx H. apply rune_at_In in H.
  rewrite Forall_forall in Hws. specialize (Hws x H). congruence.
Qed.

Lemma blank_no_substitution (ws : gostring) : blank ws -> no_substitution ws.
Proof.
  intros Hws i n Hd _. exfalso.
  exact (blank_no_rune ws i r_dollar Hws eq_refl Hd).
Qed.

(** * The further properties *)

(** ** findEndingParenthesis *)

(** X1: the result does not depend on what stands before the opening
    bracket: when a text is put in front of the runes, the index returned
    moves by the length of that text. *)
Theorem findEndingParenthesis_shift
        (pre r : list rune) (open close : rune) (openIdx : Z) :
  rune_at r openIdx = Val open ->
  exists e : Z,
    findEndingParenthesis r open close openIdx = Val e
    /\ findEndingParenthesis (pre ++ r) open close (len pre + openIdx)
       = Val (len pre + e).
Proof. apply fep_shift. Qed.

(** X1 on a concrete input. *)
Lemma findEndingParenthesis_shift_witness :
  exists e : Z,
    findEndingParenthesis (str "(d(e)f)g") r_lparen r_rparen 2 = Val e
    /\ findEndingParenthesis (str "abc" ++ str "(d(e)f)g") r_lparen r_rparen
         (len (str "abc") + 2)
       = Val (len (str "abc") + e).
Proof.
  exact (findEndingParenthesis_shift (str "abc") (str "(d(e)f)g")
           r_lparen r_rparen 2 eq_refl).
Defined.

(** X2: a closing bracket once found stays the one found whatever is put
    after the runes; and when none is found, none is found before the end
    of those runes whatever is put after them. *)
Theorem findEndingParenthesis_extend
        (r post : list rune) (open close : rune) (openIdx e : Z) :
  rune_at r openIdx = Val open ->
  findEndingParenthesis r open close openIdx = Val e ->
  (e < len r ->
   findEndingParenthesis (r ++ post) open close openIdx = Val e)
  /\ (e = len r ->
      exists e', findEndingParenthesis (r ++ post) open close openIdx = Val e'
                 /\ len r <= e').
Proof. apply fep_extend. Qed.

(** X2 on a concrete input. *)
Lemma findEndingParenthesis_extend_witness :
  findEndingParenthesis (str "a{b}" ++ str "}}") r_lbrace r_rbrace 1 = Val 3
  /\ exists e',
      findEndingParenthesis (str "a{b" ++ str "c}") r_lbrace r_rbrace 1 = Val e'
      /\ len (str "a{b") <= e'.
Proof.
  split.
  - exact (proj1 (findEndingParenthesis_extend (str "a{b}") (str "}}")
                    r_lbrace r_rbrace 1 3 eq_refl eq_refl) eq_refl).
  - exact (proj2 (findEndingParenthesis_extend (str "a{b") (str "c}")
                    r_lbrace r_rbrace 1 3 eq_refl eq_refl) eq_refl).
Defined.

(** X3: called with the same rune as opening and closing bracket, on an
    index that holds it, [findEndingParenthesis] never finds a match: the
    test of line 103 comes before that of line 105, so the counter only
    grows and the length is returned. *)
Theorem findEndingParenthesis_same_bracket
        (r : list rune) (bracket : rune) (openIdx : Z) :
  rune_at r openIdx = Val bracket ->
  findEndingParenthesis r bracket bracket openIdx = Val (len r).
Proof. apply fep_same_bracket. Qed.

(** X3 on a concrete input. *)
Lemma findEndingParenthesis_same_bracket_witness :
  findEndingParenthesis (str "a|b|c") 124 124 1 = Val 5.
Proof.
  exact (findEndingParenthesis_same_bracket (str "a|b|c") 124 1 eq_refl).
Defined.

(** X4: with two different brackets, after an opening bracket, a properly
    nested text and a closing bracket, [findEndingParenthesis] returns the
    index of that closing bracket, whatever stands before and after; after
    an opening bracket and a properly nested text that ends the runes, it
    returns the length. *)
Theorem findEndingParenthesis_nested
        (open close : rune) (pre inner post : list rune) :
  open <> close ->
  nested open close inner ->
  findEndingParenthesis (pre ++ open :: inner ++ close :: post) open close
    (len pre)
  = Val (len pre + 1 + len inner)
  /\ findEndingParenthesis (pre ++ open :: inner) open close (len pre)
     = Val (len (pre ++ open :: inner)).
Proof. intros Hne Hn. apply fep_nested; assumption. Qed.

(** X4 on a concrete input. *)
Lemma findEndingParenthesis_nested_witness :
  findEndingParenthesis (str "abc" ++ r_lparen :: str "d(e{f})gh" ++ r_rparen :: str "i)")
    r_lparen r_rparen (len (str "abc"))
  = Val (len (str "abc") + 1 + len (str "d(e{f})gh"))
  /\ findEndingParenthesis (str "abc" ++ r_lparen :: str "d(e{f})gh")
       r_lparen r_rparen (len (str "abc"))
     = Val (len (str "abc" ++ r_lparen :: str "d(e{f})gh")).
Proof.
  apply (findEndingParenthesis_nested r_lparen r_rparen (str "abc")
           (str "d(e{f})gh") (str "i)")); [discriminate|].
  apply nested_other; [discriminate..|].
  apply (nested_pair r_lparen r_rparen (str "e{f}") (str "gh"));
    repeat (apply nested_other; [discriminate..|]); apply nested_nil.
Defined.

(** ** resolveShellSubstitution and tokenizePromptCommand *)

Section ResolverExtras.

Context {World : Type}.
Variable LookupEnv : World -> gostring -> option gostring.
Variable ExecuteCommandInShell :
  World -> Z -> gostring -> gostring ->
  World * (Z * gostring * option exec_error).
Variable shellSubTimeout : Z.
Variable cwdLocation : gostring.

Local Notation resolve_on cmd :=
  (resolveShellSubstitution LookupEnv ExecuteCommandInShell shellSubTimeout cmd
     cwdLocation).
Local Notation visits_on cmd :=
  (rss_visits LookupEnv ExecuteCommandInShell shellSubTimeout cmd cwdLocation).
Local Notation tokenize_on cmd :=
  (tokenizePromptCommand LookupEnv ExecuteCommandInShell shellSubTimeout cmd
     cwdLocation).

(** A command without substitution syntax is returned as it is. *)
Lemma rss_plain (cmd : list rune) (w0 : World) :
  no_substitution cmd -> resolve_on cmd w0 = Val (w0, (cmd, None)).
Proof.
  intros Hplain.
  pose proof (rss_copies_prefix LookupEnv ExecuteCommandInShell shellSubTimeout
                cmd cwdLocation w0 Hplain (List.length cmd) (Nat.le_refl _)) as Hv.
  rewrite firstn_all in Hv.
  apply (rss_visits_end _ _ _ _ _ _ _ Hv).
  apply rss_cond_false. simpl. unfold len. lia.
Qed.

(** A successful pipeline is a successful resolution followed by
    [strings.Fields]. *)
Lemma tpc_success (cmd : list rune) (w0 w : World) (toks : list gostring) :
  tokenize_on cmd w0 = Val (w, (Some toks, None)) ->
  exists res, resolve_on cmd w0 = Val (w, (res, None)) /\ toks = Fields res.
Proof.
  intros Ht.
  destruct (rss_total LookupEnv ExecuteCommandInShell shellSubTimeout cmd
              cwdLocation w0) as ([w1 [res oe]] & Hr & _).
  rewrite (tpc_of_resolve _ _ _ _ _ _ _ _ _ Hr) in Ht.
  destruct oe as [e|]; [discriminate|].
  injection Ht as <- <-. exists res. split; [exact Hr|reflexivity].
Qed.

Lemma blank_not_split_left (ws cmd : list rune) :
  blank ws -> ~ splits_span ws cmd.
Proof.
  intros Hws [Hd _]. exact (blank_no_rune ws _ r_dollar Hws eq_refl Hd).
Qed.

Lemma blank_not_split_right (cmd ws : list rune) :
  blank ws -> ~ splits_span cmd ws.
Proof.
  intros Hws [_ [Hb|Hp]].
  - exact (blank_no_rune ws _ r_lbrace Hws eq_refl Hb).
  - exact (blank_no_rune ws _ r_lparen Hws eq_refl Hp).
Qed.

(** X5: an error of [resolveShellSubstitution] is never the "unexpected
    error in tokenization" of lines 35 and 57.  It is the mismatch of a
    curly or of a round bracket, or [envVarNotFoundError] with a name that
    is a slice of the command and is not set in the world returned, or
    the error of line 68 with a command that is a slice of the command. *)
Theorem resolve_error_kinds (cmd : list rune) (w0 w : World)
        (res : gostring) (e : error) :
  resolve_on cmd w0 = Val (w, (res, Some e)) ->
  e <> unexpectedTokenizationError
  /\ (e = curlyBracketParMatchError
      \/ e = bracketParMatchError
      \/ (exists lo hi, e = envVarNotFoundError (seg cmd lo hi)
                        /\ LookupEnv w (seg cmd lo hi) = None)
      \/ (exists lo hi cause, e = couldNotExecuteError (seg cmd lo hi) cause)).
Proof. apply rss_error_kinds. Qed.

(** X6: when the loop comes to a dollar and an opening brace for which
    [findEndingParenthesis] returns the length of the command, the call
    returns the empty string and [curlyBracketParMatchError], and the
    pipeline the nil token list and that error. *)
Theorem curly_bracket_mismatch (cmd : list rune) (w0 : World)
        (s : @rss_state World) :
  visits_on cmd w0 s ->
  rune_at cmd (rss_i s) = Val r_dollar ->
  rune_at cmd (rss_i s + 1) = Val r_lbrace ->
  findEndingParenthesis cmd r_lbrace r_rbrace (rss_i s + 1) = Val (len cmd) ->
  resolve_on cmd w0 = Val (rss_world s, ([], Some curlyBracketParMatchError))
  /\ tokenize_on cmd w0
     = Val (rss_world s, (None, Some curlyBracketParMatchError)).
Proof. apply rss_curly_mismatch. Qed.

(** X7: a command in which no dollar is followed by an opening parenthesis
    never reaches the shell: whatever the environment holds, the call
    returns in the world it was started in. *)
Theorem no_round_span_no_shell (cmd : list rune) (w0 : World) :
  (forall i, rune_at cmd i = Val r_dollar ->
             rune_at cmd (i + 1) <> Val r_lparen) ->
  exists (res : gostring) (oe : option error),
    resolve_on cmd w0 = Val (w0, (res, oe)).
Proof. apply rss_no_round_no_shell. Qed.

(** X8: when [a] resolves, [a ++ b] resolves to the output of [a] followed
    by the output of [b] resolved in the world [a] left, or fails as [b]
    does there; unless [a] ends in a dollar and [b] starts with an opening
    brace or parenthesis. *)
Theorem resolve_app (a b : list rune) (w0 w1 w2 : World)
        (ra rb : gostring) (oe : option error) :
  ~ splits_span a b ->
  resolve_on a w0 = Val (w1, (ra, None)) ->
  resolve_on b w1 = Val (w2, (rb, oe)) ->
  resolve_on (a ++ b) w0
  = Val (w2, (match oe with None => ra ++ rb | Some _ => [] end, oe)).
Proof. apply rss_app. Qed.

(** X9: when [a] fails on a variable that is not set or on the shell,
    [a ++ b] fails with the same error in the same world, whatever [b]
    is. *)
Theorem resolve_app_failure (a b : list rune) (w0 w1 : World)
        (ra : gostring) (e : error) :
  ~ splits_span a b ->
  resolve_on a w0 = Val (w1, (ra, Some e)) ->
  e <> curlyBracketParMatchError ->
  e <> bracketParMatchError ->
  resolve_on (a ++ b) w0 = Val (w1, (ra, Some e)).
Proof. apply rss_app_failure. Qed.

(** X10: between a text [a] that resolves and any text [b], [${name}]
    with properly nested braces in [name] is replaced by the value of
    [name] in the world [a] left, and [b] is resolved after it; when
    [name] is not set there the call fails with [envVarNotFoundError]
    carrying [name]. *)
Theorem env_span_in_context (a b name : list rune) (w0 w1 w2 : World)
        (ra rb : gostring) (oe : option error) :
  nested r_lbrace r_rbrace name ->
  resolve_on a w0 = Val (w1, (ra, None)) ->
  resolve_on b w1 = Val (w2, (rb, oe)) ->
  resolve_on (a ++ (r_dollar :: r_lbrace :: name ++ [r_rbrace]) ++ b) w0
  = match LookupEnv w1 name with
    | Some value =>
        Val (w2, (match oe with
                  | None => ra ++ value ++ rb
                  | Some _ => []
                  end, oe))
    | None => Val (w1, ([], Some (envVarNotFoundError name)))
    end.
Proof.
  intros Hn Ha Hb.
  set (span := r_dollar :: r_lbrace :: name ++ [r_rbrace]).
  pose proof (rss_env_span LookupEnv ExecuteCommandInShell shellSubTimeout
                cwdLocation w1 name Hn) as Hspan.
  fold span in Hspan.
  assert (Hleft : ~ splits_span a span).
  { intros [_ [H|H]]; unfold span in H;
      rewrite rune_at_head in H; discriminate H. }
  assert (Hright : ~ splits_span (a ++ span) b).
  { intros [H _]. unfold span in H.
    replace (a ++ r_dollar :: r_lbrace :: name ++ [r_rbrace])
      with ((a ++ r_dollar :: r_lbrace :: name) ++ [r_rbrace]) in H
      by (rewrite <- !app_assoc; reflexivity).
    rewrite len_app in H. change (len [r_rbrace]) with 1 in H.
    replace (len (a ++ r_dollar :: r_lbrace :: name) + 1 - 1)
      with (len (a ++ r_dollar :: r_lbrace :: name) + 0) in H by lia.
    rewrite rune_at_app_right in H by lia. discriminate H. }
  rewrite app_assoc.
  destruct (LookupEnv w1 name) as [value|].
  - pose proof (rss_app LookupEnv ExecuteCommandInShell shellSubTimeout
                  cwdLocation a span w0 w1 w1 ra value None Hleft Ha Hspan) as Has.
    rewrite (rss_app LookupEnv ExecuteCommandInShell shellSubTimeout
               cwdLocation (a ++ span) b w0 w1 w2 (ra ++ value) rb oe
               Hright Has Hb).
    rewrite <- app_assoc. reflexivity.
  - pose proof (rss_app LookupEnv ExecuteCommandInShell shellSubTimeout
                  cwdLocation a span w0 w1 w1 ra [] _ Hleft Ha Hspan) as Has.
    apply (rss_app_failure LookupEnv ExecuteCommandInShell shellSubTimeout
             cwdLocation (a ++ span) b w0 w1 [] _ Hright Has); discriminate.
Qed.

(** X11: between a text [a] that resolves and any text [b], [$(subCmd)]
    with properly nested parentheses in [subCmd] hands [subCmd] to the
    shell in the world [a] left; with a return code other than -1 the
    output takes the place of the span and [b] is resolved in the world
    the shell left; with -1 the call fails with the error of line 68. *)
Theorem shell_span_in_context (a b subCmd : list rune) (w0 w1 w1' w2 : World)
        (ra rb output : gostring) (retCode : Z) (err : option exec_error)
        (oe : option error) :
  nested r_lparen r_rparen subCmd ->
  resolve_on a w0 = Val (w1, (ra, None)) ->
  ExecuteCommandInShell w1 shellSubTimeout cwdLocation subCmd
  = (w1', (retCode, output, err)) ->
  resolve_on b w1' = Val (w2, (rb, oe)) ->
  resolve_on (a ++ (r_dollar :: r_lparen :: subCmd ++ [r_rparen]) ++ b) w0
  = if retCode =? -1
    then Val (w1', ([], Some (couldNotExecuteError subCmd err)))
    else Val (w2, (match oe with
                   | None => ra ++ output ++ rb
                   | Some _ => []
                   end, oe)).
Proof.
  intros Hn Ha Hx Hb.
  set (span := r_dollar :: r_lparen :: subCmd ++ [r_rparen]).
  pose proof (rss_shell_span LookupEnv ExecuteCommandInShell shellSubTimeout
                cwdLocation w1 w1' subCmd output retCode err Hn Hx) as Hspan.
  fold span in Hspan.
  assert (Hleft : ~ splits_span a span).
  { intros [_ [H|H]]; unfold span in H;
      rewrite rune_at_head in H; discriminate H. }
  assert (Hright : ~ splits_span (a ++ span) b).
  { intros [H _]. unfold span in H.
    replace (a ++ r_dollar :: r_lparen :: subCmd ++ [r_rparen])
      with ((a ++ r_dollar :: r_lparen :: subCmd) ++ [r_rparen]) in H
      by (rewrite <- !app_assoc; reflexivity).
    rewrite len_app in H. change (len [r_rparen]) with 1 in H.
    replace (len (a ++ r_dollar :: r_lparen :: subCmd) + 1 - 1)
      with (len (a ++ r_dollar :: r_lparen :: subCmd) + 0) in H by lia.
    rewrite rune_at_app_right in H by lia. discriminate H. }
  rewrite app_assoc.
  destruct (retCode =? -1).
  - pose proof (rss_app LookupEnv ExecuteCommandInShell shellSubTimeout
                  cwdLocation a span w0 w1 w1' ra [] _ Hleft Ha Hspan) as Has.
    apply (rss_app_failure LookupEnv ExecuteCommandInShell shellSubTimeout
             cwdLocation (a ++ span) b w0 w1' [] _ Hright Has); discriminate.
  - pose proof (rss_app LookupEnv ExecuteCommandInShell shellSubTimeout
                  cwdLocation a span w0 w1 w1' ra output None Hleft Ha Hspan) as Has.
    rewrite (rss_app LookupEnv ExecuteCommandInShell shellSubTimeout
               cwdLocation (a ++ span) b w0 w1' w2 (ra ++ output) rb oe
               Hright Has Hb).
    rewrite <- app_assoc. reflexivity.
Qed.

(** X12: the pipeline loses and reorders nothing but white space: put end
    to end, the tokens are the resolved command without its white
    space. *)
Theorem tokens_keep_runes (cmd : list rune) (w0 w : World)
        (toks : list gostring) :
  tokenize_on cmd w0 = Val (w, (Some toks, None)) ->
  exists res : gostring,
    resolve_on cmd w0 = Val (w, (res, None))
    /\ List.concat toks = filter (fun x => negb (isSpace x)) res.
Proof.
  intros Ht. destruct (tpc_success cmd w0 w toks Ht) as (res & Hr & ->).
  exists res. split; [exact Hr|].
  unfold Fields. rewrite fields_scan_concat. reflexivity.
Qed.

(** X13: tokens without white space and without substitution syntax,
    joined by single spaces, are given back by the pipeline as they
    were, in the world it was started in. *)
Theorem tokens_round_trip (toks : list gostring) (w0 : World) :
  Forall is_field toks ->
  no_substitution (join_space toks) ->
  tokenize_on (join_space toks) w0 = Val (w0, (Some toks, None)).
Proof.
  intros Hfields Hplain.
  rewrite (tpc_of_resolve _ _ _ _ _ _ _ _ _ (rss_plain _ w0 Hplain)).
  rewrite (Fields_join_space toks Hfields). reflexivity.
Qed.

(** X14: a command of white space only, the empty command among them,
    succeeds with the empty token list, which is not the nil list returned
    beside an error. *)
Theorem blank_command_no_tokens (cmd : list rune) (w0 : World) :
  Forall (fun x => isSpace x = true) cmd ->
  tokenize_on cmd w0 = Val (w0, (Some [], None)).
Proof.
  intros Hblank.
  rewrite (tpc_of_resolve _ _ _ _ _ _ _ _ _
             (rss_plain _ w0 (blank_no_substitution cmd Hblank))).
  unfold Fields. rewrite (fields_scan_blank cmd Hblank). reflexivity.
Qed.

(** X15: white space before and after a command that the pipeline
    tokenizes changes neither the tokens nor the world. *)
Theorem surrounding_space_ignored (ws1 cmd ws2 : list rune) (w0 w : World)
        (toks : list gostring) :
  Forall (fun x => isSpace x = true) ws1 ->
  Forall (fun x => isSpace x = true) ws2 ->
  tokenize_on cmd w0 = Val (w, (Some toks, None)) ->
  tokenize_on (ws1 ++ cmd ++ ws2) w0 = Val (w, (Some toks, None)).
Proof.
  intros H1 H2 Ht. destruct (tpc_success cmd w0 w toks Ht) as (res & Hr & ->).
  pose proof (rss_app LookupEnv ExecuteCommandInShell shellSubTimeout cwdLocation
                cmd ws2 w0 w w res ws2 None (blank_not_split_right cmd ws2 H2)
                Hr (rss_plain ws2 w (blank_no_substitution ws2 H2))) as Hright.
  pose proof (rss_app LookupEnv ExecuteCommandInShell shellSubTimeout cwdLocation
                ws1 (cmd ++ ws2) w0 w0 w ws1 (res ++ ws2) None
                (blank_not_split_left ws1 (cmd ++ ws2) H1)
                (rss_plain ws1 w0 (blank_no_substitution ws1 H1)) Hright) as Hall.
  rewrite (tpc_of_resolve _ _ _ _ _ _ _ _ _ Hall).
  rewrite (Fields_blank_app ws1 _ H1). unfold Fields.
  rewrite (fields_scan_app_blank res ws2 H2). reflexivity.
Qed.

(** X16: two commands that the pipeline tokenizes, the second in the
    world the first left, put on one line with a space between them, give
    the tokens of the first followed by the tokens of the second. *)
Theorem tokens_of_spaced_commands (a b : list rune) (w0 w1 w2 : World)
        (ta tb : list gostring) :
  tokenize_on a w0 = Val (w1, (Some ta, None)) ->
  tokenize_on b w1 = Val (w2, (Some tb, None)) ->
  tokenize_on (a ++ 32 :: b) w0 = Val (w2, (Some (ta ++ tb), None)).
Proof.
  intros Ha Hb.
  destruct (tpc_success a w0 w1 ta Ha) as (ra & Hra & ->).
  destruct (tpc_success b w1 w2 tb Hb) as (rb & Hrb & ->).
  assert (Hspace : blank [32]) by (repeat constructor).
  pose proof (rss_app LookupEnv ExecuteCommandInShell shellSubTimeout cwdLocation
                a [32] w0 w1 w1 ra [32] None (blank_not_split_right a [32] Hspace)
                Hra (rss_plain [32] w1 (blank_no_substitution [32] Hspace)))
    as Hleft.
  pose proof (rss_app LookupEnv ExecuteCommandInShell shellSubTimeout cwdLocation
                (a ++ [32]) b w0 w1 w2 (ra ++ [32]) rb None) as Hall.
  specialize (Hall ltac:(
    intros [H _]; rewrite len_app in H; change (len [32]) with 1 in H;
    replace (len a + 1 - 1) with (len a + 0) in H by lia;
    rewrite rune_at_app_right in H by lia; discriminate H) Hleft Hrb).
  rewrite <- app_assoc in Hall. simpl app in Hall.
  refine (eq_trans (tpc_of_resolve _ _ _ _ _ _ _ _ _ Hall) _).
  rewrite <- app_assoc. simpl app. unfold Fields.
  rewrite fields_scan_app_space. reflexivity.
Qed.

End ResolverExtras.

(** ** The further properties on the commands of the tests *)

Lemma resolve_error_kinds_witness :
  envVarNotFoundError (str "SPF_TEST_ENV_VAR4") <> unexpectedTokenizationError
  /\ (envVarNotFoundError (str "SPF_TEST_ENV_VAR4") = curlyBracketParMatchError
      \/ envVarNotFoundError (str "SPF_TEST_ENV_VAR4") = bracketParMatchError
      \/ (exists lo hi,
             envVarNotFoundError (str "SPF_TEST_ENV_VAR4")
             = envVarNotFoundError (seg (str "${SPF_TEST_ENV_VAR4}") lo hi)
             /\ Demo.LookupEnv [] (seg (str "${SPF_TEST_ENV_VAR4}") lo hi) = None)
      \/ (exists lo hi cause,
             envVarNotFoundError (str "SPF_TEST_ENV_VAR4")
             = couldNotExecuteError (seg (str "${SPF_TEST_ENV_VAR4}") lo hi) cause)).
Proof.
  apply (resolve_error_kinds Demo.LookupEnv Demo.ExecuteCommandInShell 1000
           (str "/tmp") (str "${SPF_TEST_ENV_VAR4}") [] [] []
           (envVarNotFoundError (str "SPF_TEST_ENV_VAR4"))).
  reflexivity.
Defined.

(** X6 on a concrete input. *)
Lemma curly_bracket_mismatch_witness :
  Demo.resolve (str "a ${b") = Val ([], ([], Some curlyBracketParMatchError))
  /\ Demo.tokenize (str "a ${b") = Val ([], (None, Some curlyBracketParMatchError)).
Proof.
  refine (curly_bracket_mismatch Demo.LookupEnv Demo.ExecuteCommandInShell 1000
            (str "/tmp") (str "a ${b") [] (mk_rss 2 (str "a ") []) _ _ _ _);
    [|reflexivity..].
  unfold rss_visits.
  do 2 (eapply rss_reaches_first; [reflexivity|reflexivity|]).
  apply rss_reaches_here.
Defined.

(** X7 on a concrete input. *)
Lemma no_round_span_no_shell_witness :
  exists (res : gostring) (oe : option error),
    Demo.resolve (str "${SPF_TEST_ENV_VAR2} x") = Val ([], (res, oe)).
Proof.
  apply (no_round_span_no_shell Demo.LookupEnv Demo.ExecuteCommandInShell 1000
           (str "/tmp") (str "${SPF_TEST_ENV_VAR2} x") []).
  intros i _ Hn. apply rune_at_In in Hn. simpl in Hn.
  repeat (destruct Hn as [Hn|Hn]; [discriminate Hn|]). exact Hn.
Defined.

(** X8 on a concrete input. *)
Lemma resolve_app_witness :
  Demo.resolve (str "$(echo abc) " ++ str "${SPF_TEST_ENV_VAR2}")
  = Val ([str "echo abc"], (str "abc" ++ Demo.newline ++ str " hello", None)).
Proof.
  refine (resolve_app Demo.LookupEnv Demo.ExecuteCommandInShell 1000 (str "/tmp")
            (str "$(echo abc) ") (str "${SPF_TEST_ENV_VAR2}")
            [] [str "echo abc"] [str "echo abc"]
            (str "abc" ++ Demo.newline ++ str " ") (str "hello") None
            _ eq_refl eq_refl).
  intros [H _]. vm_compute in H. discriminate H.
Defined.

(** X9 on a concrete input. *)
Lemma resolve_app_failure_witness :
  Demo.resolve (str "${SPF_TEST_ENV_VAR4}" ++ str " $(true)")
  = Val ([], ([], Some (envVarNotFoundError (str "SPF_TEST_ENV_VAR4")))).
Proof.
  apply (resolve_app_failure Demo.LookupEnv Demo.ExecuteCommandInShell 1000
           (str "/tmp") (str "${SPF_TEST_ENV_VAR4}") (str " $(true)")
           [] [] [] (envVarNotFoundError (str "SPF_TEST_ENV_VAR4")));
    [|reflexivity|discriminate..].
  intros [H _]. vm_compute in H. discriminate H.
Defined.

(** X10 on a concrete input. *)
Lemma env_span_in_context_witness :
  Demo.resolve (str "cd "
                ++ (r_dollar :: r_lbrace :: str "SPF_TEST_ENV_VAR2" ++ [r_rbrace])
                ++ str "/x")
  = Val ([], (str "cd " ++ str "hello" ++ str "/x", None)).
Proof.
  refine (env_span_in_context Demo.LookupEnv Demo.ExecuteCommandInShell 1000
            (str "/tmp") (str "cd ") (str "/x") (str "SPF_TEST_ENV_VAR2")
            [] [] [] (str "cd ") (str "/x") None _ eq_refl eq_refl).
  repeat (apply nested_other; [discriminate..|]). apply nested_nil.
Defined.

(** X11 on a concrete input. *)
Lemma shell_span_in_context_witness :
  Demo.resolve (str "ls "
                ++ (r_dollar :: r_lparen :: str "echo abc" ++ [r_rparen])
                ++ str "!")
  = Val ([str "echo abc"],
         (str "ls " ++ (str "abc" ++ Demo.newline) ++ str "!", None)).
Proof.
  refine (shell_span_in_context Demo.LookupEnv Demo.ExecuteCommandInShell 1000
            (str "/tmp") (str "ls ") (str "!") (str "echo abc")
            [] [] [str "echo abc"] [str "echo abc"]
            (str "ls ") (str "!") (str "abc" ++ Demo.newline) 0 None None
            _ eq_refl eq_refl eq_refl).
  repeat (apply nested_other; [discriminate..|]). apply nested_nil.
Defined.

(** X12 on a concrete input. *)
Lemma tokens_keep_runes_witness :
  exists res : gostring,
    Demo.resolve (str "  a $5 b ") = Val ([], (res, None))
    /\ List.concat [str "a"; str "$5"; str "b"]
       = filter (fun x => negb (isSpace x)) res.
Proof.
  exact (tokens_keep_runes Demo.LookupEnv Demo.ExecuteCommandInShell 1000
           (str "/tmp") (str "  a $5 b ") [] []
           [str "a"; str "$5"; str "b"] eq_refl).
Defined.

(** X13 on a concrete input. *)
Lemma tokens_round_trip_witness :
  Demo.tokenize (join_space [str "ls"; str "-la"; str "$HOME"])
  = Val ([], (Some [str "ls"; str "-la"; str "$HOME"], None)).
Proof.
  apply (tokens_round_trip Demo.LookupEnv Demo.ExecuteCommandInShell 1000
           (str "/tmp") [str "ls"; str "-la"; str "$HOME"] []).
  - repeat constructor; discriminate.
  - apply no_substitutionb_sound. reflexivity.
Defined.

(** X14 on a concrete input. *)
Lemma blank_command_no_tokens_witness :
  Demo.tokenize [32; 9; 10] = Val ([], (Some [], None)).
Proof.
  apply (blank_command_no_tokens Demo.LookupEnv Demo.ExecuteCommandInShell 1000
           (str "/tmp") [32; 9; 10] []).
  repeat constructor.
Defined.

(** X15 on a concrete input. *)
Lemma surrounding_space_ignored_witness :
  Demo.tokenize (str "  " ++ str "echo ${SPF_TEST_ENV_VAR2}" ++ [10])
  = Val ([], (Some [str "echo"; str "hello"], None)).
Proof.
  apply (surrounding_space_ignored Demo.LookupEnv Demo.ExecuteCommandInShell 1000
           (str "/tmp") (str "  ") (str "echo ${SPF_TEST_ENV_VAR2}") [10] [] []
           [str "echo"; str "hello"]).
  - repeat constructor.
  - repeat constructor.
  - reflexivity.
Defined.

(** X16 on a concrete input. *)
Lemma tokens_of_spaced_commands_witness :
  Demo.tokenize (str "$(echo abc)" ++ 32 :: str "${SPF_TEST_ENV_VAR2} x")
  = Val ([str "echo abc"], (Some ([str "abc"] ++ [str "hello"; str "x"]), None)).
Proof.
  exact (tokens_of_spaced_commands Demo.LookupEnv Demo.ExecuteCommandInShell 1000
           (str "/tmp") (str "$(echo abc)") (str "${SPF_TEST_ENV_VAR2} x")
           [] [str "echo abc"] [str "echo abc"]
           [str "abc"] [str "hello"; str "x"] eq_refl eq_refl).
Defined.

(** * Terminal cell size *)

Module FilePreviewFacts.

Import FilePreview.

(** Rows one would test [parseCSI16tResponse] on. *)
Example parse_reply_example :
  parseCSI16tResponse ([27] ++ str "[6;20;10t") = Val (10, 20, true).
Proof. reflexivity. Qed.

Example parse_empty_example : parseCSI16tResponse [] = Val (0, 0, false).
Proof. reflexivity. Qed.

Example parse_zero_example :
  parseCSI16tResponse ([27] ++ str "[6;0;10t") = Val (0, 0, false).
Proof. reflexivity. Qed.

Example parse_letters_example :
  parseCSI16tResponse ([27] ++ str "[6;2x;10t") = Val (0, 0, false).
Proof. reflexivity. Qed.

(** ** Bytes, prefixes and splitting *)

Lemma HasPrefix_app (prefix s : list Z) : HasPrefix (prefix ++ s) prefix = true.
Proof.
  induction prefix as [|p prefix IH]; simpl; [reflexivity|].
  rewrite Z.eqb_refl. exact IH.
Qed.

Lemma Contains_prefix (s sub : list Z) :
  HasPrefix s sub = true -> Contains s sub = true.
Proof. intros H. destruct s; simpl in *; rewrite H; reflexivity. Qed.

Lemma Contains_app_right (a b sub : list Z) :
  Contains b sub = true -> Contains (a ++ b) sub = true.
Proof.
  intros H. induction a as [|x a IH]; [exact H|].
  simpl. rewrite IH. apply orb_true_r.
Qed.

Lemma TrimPrefix_app (prefix s : list Z) : TrimPrefix (prefix ++ s) prefix = s.
Proof.
  unfold TrimPrefix. rewrite HasPrefix_app.
  rewrite skipn_app, skipn_all, Nat.sub_diag. reflexivity.
Qed.

Lemma Split_upto (s : list Z) (sep : Z) :
  exists parts, Split s sep = upto sep s :: parts.
Proof.
  induction s as [|x s [parts IH]]; simpl; [exists []; reflexivity|].
  destruct (x =? sep); [eexists; reflexivity|].
  rewrite IH. eexists. reflexivity.
Qed.

Lemma upto_app (sep : Z) (a rest : list Z) :
  Forall (fun c => c <> sep) a ->
  upto sep (a ++ rest) = a ++ upto sep rest.
Proof.
  induction 1 as [|x a Hx _ IH]; [reflexivity|].
  simpl. apply Z.eqb_neq in Hx. rewrite Hx, IH. reflexivity.
Qed.

Lemma upto_sep (sep : Z) (rest : list Z) : upto sep (sep :: rest) = [].
Proof. simpl. rewrite Z.eqb_refl. reflexivity. Qed.

Lemma Split_app_sep (sep : Z) (a rest : list Z) :
  Forall (fun c => c <> sep) a ->
  Split (a ++ sep :: rest) sep = a :: Split rest sep.
Proof.
  induction 1 as [|x a Hx _ IH]; simpl.
  - rewrite Z.eqb_refl. reflexivity.
  - apply Z.eqb_neq in Hx. rewrite Hx, IH. reflexivity.
Qed.

Lemma elem_at_head {A : Type} (x : A) (l : list A) : elem_at (x :: l) 0 = Val x.
Proof.
  unfold elem_at. rewrite len_cons. pose proof (len_nonneg l).
  replace (0 <? len l + 1) with true by (symmetry; apply Z.ltb_lt; lia).
  reflexivity.
Qed.

Lemma elem_at_second {A : Type} (x y : A) (l : list A) :
  elem_at (x :: y :: l) 1 = Val y.
Proof.
  unfold elem_at. rewrite !len_cons. pose proof (len_nonneg l).
  replace (1 <? len l + 1 + 1) with true by (symmetry; apply Z.ltb_lt; lia).
  reflexivity.
Qed.

(** ** strconv.Atoi *)

Lemma digits_value_digits (s : list Z) :
  forall acc n : Z,
    digits_value acc s = Some n ->
    Forall (fun c => 48 <= c <= 57) s.
Proof.
  induction s as [|c s IH]; intros acc n H; [constructor|].
  simpl in H.
  destruct (Z.leb_spec 48 c); destruct (Z.leb_spec c 57); simpl in H;
    try discriminate.
  constructor; [lia|]. exact (IH _ _ H).
Qed.

(** A text [Atoi] accepts is made of a sign or a digit, then digits; its
    value is in the range of [int]. *)
Lemma Atoi_Some (s : list Z) (n : Z) :
  Atoi s = Some n ->
  Forall (fun c => c = 45 \/ c = 43 \/ 48 <= c <= 57) s
  /\ s <> []
  /\ - 2 ^ 63 <= n <= 2 ^ 63 - 1.
Proof.
  unfold Atoi. destruct s as [|c rest]; [discriminate|].
  intros H.
  assert (Hdig : forall l, Forall (fun c => 48 <= c <= 57) l ->
                           Forall (fun c => c = 45 \/ c = 43 \/ 48 <= c <= 57) l).
  { intros l Hl. eapply Forall_impl; [|exact Hl].
    intros x Hx. cbv beta in Hx. tauto. }
  assert (Hrange : forall v : Z,
             (if (- 2 ^ 63 <=? v) && (v <=? 2 ^ 63 - 1) then Some v else None)
             = Some n -> - 2 ^ 63 <= n <= 2 ^ 63 - 1).
  { intros v Hv.
    destruct (Z.leb_spec (- 2 ^ 63) v); destruct (Z.leb_spec v (2 ^ 63 - 1));
      simpl in Hv; try discriminate. injection Hv as <-. lia. }
  destruct ((c =? 45) || (c =? 43)) eqn:Hsign.
  - destruct rest as [|d rest]; [discriminate|].
    destruct (digits_value 0 (d :: rest)) as [m|] eqn:Hd; [|discriminate].
    split; [|split; [discriminate|exact (Hrange _ H)]].
    constructor.
    + apply orb_true_iff in Hsign. destruct Hsign as [Hs|Hs];
        apply Z.eqb_eq in Hs; tauto.
    + apply Hdig. exact (digits_value_digits _ _ _ Hd).
  - destruct (digits_value 0 (c :: rest)) as [m|] eqn:Hd; [|discriminate].
    split; [|split; [discriminate|exact (Hrange _ H)]].
    apply Hdig. exact (digits_value_digits _ _ _ Hd).
Qed.

Lemma Atoi_no_byte (s : list Z) (n sep : Z) :
  Atoi s = Some n ->
  sep <> 45 -> sep <> 43 -> ~ 48 <= sep <= 57 ->
  Forall (fun c => c <> sep) s.
Proof.
  intros H H1 H2 H3. destruct (Atoi_Some s n H) as [Hall _].
  eapply Forall_impl; [|exact Hall]. intros c Hc ->. cbv beta in Hc. tauto.
Qed.

(** ** parseCSI16tResponse *)

Lemma len_two_or_more {A : Type} (x y : A) (l : list A) :
  (len (x :: y :: l) <? 2) = false.
Proof. rewrite !len_cons. pose proof (len_nonneg l). apply Z.ltb_ge. lia. Qed.

Lemma len_one_or_more {A : Type} (x : A) (l : list A) :
  (len (x :: l) <? 1) = false.
Proof. rewrite len_cons. pose proof (len_nonneg l). apply Z.ltb_ge. lia. Qed.

(** The function returns on every response, and what it returns is two
    positive sizes and [true], or two zeros and [false]. *)
Lemma parse_total (response : list Z) :
  exists (w h : Z) (ok : bool),
    parseCSI16tResponse response = Val (w, h, ok)
    /\ (if ok then 0 < w <= 2 ^ 63 - 1 /\ 0 < h <= 2 ^ 63 - 1
        else w = 0 /\ h = 0).
Proof.
  assert (Hfail : exists (w h : Z) (ok : bool),
             Val (0, 0, false) = Val (w, h, ok)
             /\ (if ok then 0 < w <= 2 ^ 63 - 1 /\ 0 < h <= 2 ^ 63 - 1
                 else w = 0 /\ h = 0)).
  { exists 0, 0, false. split; [reflexivity|]. split; reflexivity. }
  unfold parseCSI16tResponse.
  destruct (Contains response csi_reply_prefix); simpl; [|exact Hfail].
  destruct (Split_upto (TrimPrefix response csi_reply_prefix) r_semicolon)
    as [parts Hparts].
  rewrite Hparts. destruct parts as [|p1 parts]; [exact Hfail|].
  rewrite len_two_or_more, elem_at_head, elem_at_second. simpl bind.
  destruct (Split_upto p1 r_t) as [wparts Hw]. rewrite Hw.
  rewrite len_one_or_more, elem_at_head. simpl bind.
  destruct (Atoi (upto r_semicolon (TrimPrefix response csi_reply_prefix)))
    as [h|] eqn:Hh; [|exact Hfail].
  destruct (Atoi (upto r_t p1)) as [w|] eqn:Hw'; [|exact Hfail].
  destruct (Z.leb_spec h 0); simpl; [exact Hfail|].
  destruct (Z.leb_spec w 0); simpl; [exact Hfail|].
  exists w, h, true. split; [reflexivity|].
  destruct (Atoi_Some _ _ Hh) as (_ & _ & Hrh).
  destruct (Atoi_Some _ _ Hw') as (_ & _ & Hrw). lia.
Qed.

(** A response that, once the prefix is trimmed, is a height, a semicolon,
    a width and a [t] gives that width and that height. *)
Lemma parse_sizes (response hs ws rest : list Z) (h w : Z) :
  Contains response csi_reply_prefix = true ->
  TrimPrefix response csi_reply_prefix
  = hs ++ r_semicolon :: ws ++ r_t :: rest ->
  reads_as hs h -> reads_as ws w ->
  parseCSI16tResponse response = Val (w, h, true).
Proof.
  intros Hc Htrim [Hh Hhpos] [Hw Hwpos].
  unfold parseCSI16tResponse. rewrite Hc, Htrim. simpl negb. cbv iota.
  assert (Hhs : Forall (fun c => c <> r_semicolon) hs)
    by (apply (Atoi_no_byte hs h); [exact Hh|discriminate..|unfold r_semicolon; lia]).
  assert (Hws : Forall (fun c => c <> r_semicolon) ws)
    by (apply (Atoi_no_byte ws w); [exact Hw|discriminate..|unfold r_semicolon; lia]).
  assert (Hwt : Forall (fun c => c <> r_t) ws)
    by (apply (Atoi_no_byte ws w); [exact Hw|discriminate..|unfold r_t; lia]).
  rewrite (Split_app_sep r_semicolon hs _ Hhs).
  destruct (Split_upto (ws ++ r_t :: rest) r_semicolon) as [parts Hparts].
  rewrite Hparts, len_two_or_more, elem_at_head, elem_at_second. simpl bind.
  rewrite (upto_app r_semicolon ws _ Hws).
  change (upto r_semicolon (r_t :: rest)) with (r_t :: upto r_semicolon rest).
  rewrite (Split_app_sep r_t ws _ Hwt), len_one_or_more, elem_at_head.
  simpl bind. rewrite Hh, Hw.
  replace (h <=? 0) with false by (symmetry; apply Z.leb_gt; lia).
  replace (w <=? 0) with false by (symmetry; apply Z.leb_gt; lia).
  reflexivity.
Qed.

(** X17: [parseCSI16tResponse] returns on every response, without a
    panic, and what it returns is a width and a height that are both
    positive with [true], or two zeros with [false]. *)
Theorem parse_result_invariant (response : list Z) :
  exists (w h : Z) (ok : bool),
    parseCSI16tResponse response = Val (w, h, ok)
    /\ (if ok then 0 < w <= 2 ^ 63 - 1 /\ 0 < h <= 2 ^ 63 - 1
        else w = 0 /\ h = 0).
Proof. apply parse_total. Qed.

(** X18: the reply [ESC[6;height;widtht], with a height and a width that
    [strconv.Atoi] reads as positive numbers, gives that width and that
    height, the width first, whatever bytes follow the [t]. *)
Theorem parse_well_formed_reply (hs ws rest : list Z) (h w : Z) :
  reads_as hs h -> reads_as ws w ->
  parseCSI16tResponse
    (csi_reply_prefix ++ hs ++ r_semicolon :: ws ++ r_t :: rest)
  = Val (w, h, true).
Proof.
  intros Hh Hw.
  apply (parse_sizes _ hs ws rest h w); try assumption.
  - apply Contains_prefix, HasPrefix_app.
  - apply TrimPrefix_app.
Qed.

(** X18 on a concrete input. *)
Lemma parse_well_formed_reply_witness :
  parseCSI16tResponse
    (csi_reply_prefix ++ str "20" ++ r_semicolon :: str "10" ++ r_t :: str "xyz")
  = Val (10, 20, true).
Proof.
  apply (parse_well_formed_reply (str "20") (str "10") (str "xyz") 20 10);
    split; reflexivity.
Defined.

(** X19: the prefix [ESC[6;] is looked for anywhere in the response but
    trimmed only at its start, so a response that starts with the height,
    a semicolon, the width and a [t], and holds the prefix later, gives
    that width and that height as well. *)
Theorem parse_prefix_anywhere (hs ws rest : list Z) (h w : Z) :
  reads_as hs h -> reads_as ws w ->
  Contains rest csi_reply_prefix = true ->
  parseCSI16tResponse (hs ++ r_semicolon :: ws ++ r_t :: rest)
  = Val (w, h, true).
Proof.
  intros Hh Hw Hc.
  apply (parse_sizes _ hs ws rest h w); try assumption.
  - replace (hs ++ r_semicolon :: ws ++ r_t :: rest)
      with ((hs ++ r_semicolon :: ws ++ [r_t]) ++ rest)
      by (rewrite <- app_assoc; simpl; rewrite <- app_assoc; reflexivity).
    apply Contains_app_right. exact Hc.
  - unfold TrimPrefix.
    destruct Hh as [Hh _]. destruct (Atoi_Some hs h Hh) as (Hall & Hne & _).
    destruct hs as [|c hs]; [congruence|].
    inversion Hall as [|? ? Hc0 _]; subst.
    simpl. replace (c =? 27) with false; [reflexivity|].
    symmetry. apply Z.eqb_neq. lia.
Qed.

(** X19 on a concrete input. *)
Lemma parse_prefix_anywhere_witness :
  parseCSI16tResponse
    (str "20" ++ r_semicolon :: str "10" ++ r_t :: csi_reply_prefix)
  = Val (10, 20, true).
Proof.
  apply (parse_prefix_anywhere (str "20") (str "10") csi_reply_prefix 20 10);
    [split; reflexivity..|reflexivity].
Defined.

(** X20: bytes read before the reply make the parse fail: a response
    that starts with a byte other than ESC, holds no semicolon before the
    prefix [ESC[6;], gives two zeros and [false] whatever follows the
    prefix. *)
Theorem parse_leading_bytes_fail (x : Z) (pre tail : list Z) :
  x <> 27 ->
  Forall (fun c => c <> r_semicolon) (x :: pre) ->
  parseCSI16tResponse (x :: pre ++ csi_reply_prefix ++ tail)
  = Val (0, 0, false).
Proof.
  intros Hx Hpre.
  assert (Hc : Contains (x :: pre ++ csi_reply_prefix ++ tail) csi_reply_prefix
               = true).
  { change (x :: pre ++ csi_reply_prefix ++ tail)
      with ((x :: pre) ++ csi_reply_prefix ++ tail).
    apply Contains_app_right, Contains_prefix, HasPrefix_app. }
  assert (Htrim : TrimPrefix (x :: pre ++ csi_reply_prefix ++ tail)
                    csi_reply_prefix
                  = ((x :: pre) ++ [27; 91; 54]) ++ r_semicolon :: tail).
  { unfold TrimPrefix. simpl HasPrefix.
    replace (x =? 27) with false by (symmetry; apply Z.eqb_neq; exact Hx).
    simpl. rewrite <- app_assoc. reflexivity. }
  assert (Hnone : Atoi ((x :: pre) ++ [27; 91; 54]) = None).
  { destruct (Atoi ((x :: pre) ++ [27; 91; 54])) as [h|] eqn:Hh; [|reflexivity].
    exfalso. destruct (Atoi_Some _ _ Hh) as (Hall & _ & _).
    apply Forall_app in Hall. destruct Hall as [_ Hall].
    inversion Hall as [|? ? H27 _]; subst. lia. }
  unfold parseCSI16tResponse. rewrite Hc, Htrim. simpl negb. cbv iota.
  rewrite Split_app_sep
    by (apply Forall_app; split; [exact Hpre|repeat constructor; discriminate]).
  destruct (Split_upto tail r_semicolon) as [parts Hparts].
  rewrite Hparts, len_two_or_more, elem_at_head, elem_at_second. cbn [bind].
  destruct (Split_upto (upto r_semicolon tail) r_t) as [wparts Hw].
  rewrite Hw, len_one_or_more, elem_at_head. cbn [bind].
  rewrite Hnone. reflexivity.
Qed.

(** X20 on a concrete input. *)
Lemma parse_leading_bytes_fail_witness :
  parseCSI16tResponse
    (113 :: str "w" ++ csi_reply_prefix ++ str "20;10t")
  = Val (0, 0, false).
Proof.
  apply (parse_leading_bytes_fail 113 (str "w") (str "20;10t"));
    [discriminate|repeat constructor; discriminate].
Defined.

(** ** DetectTerminalCellSize and GetTerminalCellSize *)

(** On a terminal that takes what is written: the three sequences reach
    it in order, and the reply of the tests gives the size. *)
Example detect_on_taking_terminal :
  DetectTerminalCellSize taking_WriteString taking_Sync []
    (ReplyBytes (csi_reply_prefix ++ str "20;10t"))
  = Val ([esc_save_cursor; esc_request_size; esc_restore_cursor],
         mkCellSize 10 20).
Proof. reflexivity. Qed.

(** On a terminal every call on which fails: nothing reaches it, and the
    call returns all the same. *)
Example detect_on_failing_terminal :
  DetectTerminalCellSize failing_WriteString failing_Sync []
    (ReplyBytes (csi_reply_prefix ++ str "20;10t"))
  = Val ([], mkCellSize 10 20)
  /\ DetectTerminalCellSize failing_WriteString failing_Sync [] ReplyTimeout
     = Val ([], default_cell_size).
Proof. split; reflexivity. Qed.

(** The size [DetectTerminalCellSize] returns for a reply, whatever the
    terminal does with the writes. *)
Lemma detect_total (reply : terminal_reply) :
  exists size : TerminalCellSize,
    (forall (Stdout : Type)
            (WriteString : Stdout -> list Z -> Stdout * option io_error)
            (Sync : Stdout -> Stdout * option io_error) (out : Stdout),
        DetectTerminalCellSize WriteString Sync out reply
        = Val (stdout_after_detect WriteString Sync out, size))
    /\ 0 < PixelsPerColumn size /\ 0 < PixelsPerRow size
    /\ match reply with
       | ReplyBytes response =>
           forall w h, parseCSI16tResponse response = Val (w, h, true) ->
                       size = mkCellSize w h
       | _ => size = default_cell_size
       end.
Proof.
  assert (Hdefault : 0 < PixelsPerColumn default_cell_size
                     /\ 0 < PixelsPerRow default_cell_size)
    by (split; reflexivity).
  destruct reply as [| |response].
  - exists default_cell_size. repeat split; reflexivity.
  - exists default_cell_size. repeat split; reflexivity.
  - destruct (parse_total response) as (w & h & ok & Hp & Hok).
    destruct ok.
    + exists (mkCellSize w h). split; [|split; [|split]].
      * intros Stdout WriteString Sync out.
        unfold DetectTerminalCellSize. rewrite Hp. reflexivity.
      * simpl. lia.
      * simpl. lia.
      * intros w' h' Hp'. rewrite Hp in Hp'. injection Hp' as <- <-.
        reflexivity.
    + exists default_cell_size. split; [|split; [|split]].
      * intros Stdout WriteString Sync out.
        unfold DetectTerminalCellSize. rewrite Hp. reflexivity.
      * reflexivity.
      * reflexivity.
      * intros w' h' Hp'. rewrite Hp in Hp'. discriminate Hp'.
Qed.

(** X21: whatever the terminal answers, and whether or not the writes to
    it and the sync fail, [DetectTerminalCellSize] returns, and returns a
    cell size with positive width and height: the defaults 10 by 20 after
    a timeout or a failed read, the parsed width and height when the reply
    parses.  The size is that of the reply alone: on any terminal the call
    returns that size and leaves the terminal as the four calls save
    cursor, request size, sync, restore cursor leave it, the restore
    being made on the timeout path as on the other. *)
Theorem detect_cell_size_positive (reply : terminal_reply) :
  exists size : TerminalCellSize,
    (forall (Stdout : Type)
            (WriteString : Stdout -> list Z -> Stdout * option io_error)
            (Sync : Stdout -> Stdout * option io_error) (out : Stdout),
        DetectTerminalCellSize WriteString Sync out reply
        = Val (fst (WriteString
                      (fst (Sync
                              (fst (WriteString
                                      (fst (WriteString out esc_save_cursor))
                                      esc_request_size))))
                      esc_restore_cursor),
               size))
    /\ 0 < PixelsPerColumn size /\ 0 < PixelsPerRow size
    /\ match reply with
       | ReplyBytes response =>
           forall w h, parseCSI16tResponse response = Val (w, h, true) ->
                       size = mkCellSize w h
       | _ => size = mkCellSize 10 20
       end.
Proof. exact (detect_total reply). Qed.

(** X22: [GetTerminalCellSize] asks the terminal at most once: after any
    call, every later call returns the size that call returned and leaves
    the terminal as it finds it, whatever the terminal would answer; and
    the size of the first call on fresh capabilities is positive. *)
Theorem get_cell_size_once (Stdout : Type)
        (WriteString : Stdout -> list Z -> Stdout * option io_error)
        (Sync : Stdout -> Stdout * option io_error)
        (tc : TerminalCapabilities) (out : Stdout) (reply : terminal_reply) :
  exists (tc' : TerminalCapabilities) (out' : Stdout)
         (size : TerminalCellSize),
    GetTerminalCellSize WriteString Sync tc out reply = Val (tc', out', size)
    /\ (forall out2 reply',
           GetTerminalCellSize WriteString Sync tc' out2 reply'
           = Val (tc', out2, size))
    /\ (tc = NewTerminalCapabilities ->
        0 < PixelsPerColumn size /\ 0 < PixelsPerRow size).
Proof.
  unfold GetTerminalCellSize. destruct tc as [size0 init].
  destruct init; cbn [cellSizeInit cellSize].
  - exists (mkCaps size0 true), out, size0. split; [reflexivity|].
    split; [reflexivity|]. discriminate.
  - destruct (detect_total reply) as (size & Hd & Hc & Hr & _).
    rewrite (Hd Stdout WriteString Sync out). cbn [bind].
    exists (mkCaps size true), (stdout_after_detect WriteString Sync out), size.
    split; [reflexivity|]. split; [reflexivity|]. intros _. split; assumption.
Qed.

End FilePreviewFacts.
